(** * xui style.js: class names, inline styles and the class-name pattern cache

    A shallow embedding of [src/core/style.js] of xui: the methods
    [setStyle], [getStyle], [addClass], [hasClass], [removeClass] and [css]
    that the file adds to an element collection, together with the private
    helpers [hasClass], [trim] and [getClassRegEx].

    Strings are sequences of UTF-16 code units.  The regular expressions the
    file builds at run time ([new RegExp('(?:^|\\s+)' + className +
    '(?:\\s+|$)')]) are parsed from their source text and run by a
    backtracking matcher that follows ECMAScript 5.1, section 15.10.  What
    the browser decides (the computed style, what a style object stores when
    one of its properties is assigned, the text of a built-in function) is a
    parameter of the state. *)

From Stdlib Require Import NArith Ascii String List Bool Lia.
From stdpp Require Import base option list gmap strings.

(** ** Strings *)

(** A JavaScript string is a list of UTF-16 code units. *)
Abbreviation jsstring := (list N).

(** The code units of a Latin-1 literal. *)
Definition js (s : string) : jsstring :=
  map N_of_ascii (list_ascii_of_string s).

Module Chars.

(** LineTerminator, ES5.1 section 7.3. *)
Definition is_line_terminator (c : N) : bool :=
  ((c =? 10) || (c =? 13) || (c =? 0x2028) || (c =? 0x2029))%N.

(** WhiteSpace, ES5.1 section 7.2 (with the Zs category of current Unicode). *)
Definition is_white_space (c : N) : bool :=
  ((c =? 9) || (c =? 11) || (c =? 12) || (c =? 32) || (c =? 160)
   || (c =? 0xFEFF) || (c =? 0x1680)
   || ((0x2000 <=? c) && (c <=? 0x200A))
   || (c =? 0x202F) || (c =? 0x205F) || (c =? 0x3000))%N.

(** The characters [\s] matches, ES5.1 section 15.10.2.12. *)
Definition is_space (c : N) : bool :=
  is_white_space c || is_line_terminator c.

(** The characters [\d] matches. *)
Definition is_digit (c : N) : bool := ((48 <=? c) && (c <=? 57))%N.

(** The characters [\w] matches. *)
Definition is_word (c : N) : bool :=
  (((97 <=? c) && (c <=? 122)) || ((65 <=? c) && (c <=? 90))
   || is_digit c || (c =? 95))%N.

End Chars.

(** ** Regular expressions *)

Module RegExp.
Import Chars.

Inductive cclass := CSpace | CDigit | CWord.

Definition in_class (k : cclass) (c : N) : bool :=
  match k with
  | CSpace => is_space c
  | CDigit => is_digit c
  | CWord => is_word c
  end.

(** Patterns without captures, back references, look-ahead, character
    classes and counted repetition.  [r+] is [Seq r (Star g r)]. *)
Inductive regex :=
| Empty
| Char (c : N)
| Dot
| Class (neg : bool) (k : cclass)
| Bol
| Eol
| WordB (neg : bool)
| Seq (r1 r2 : regex)
| Alt (r1 r2 : regex)
| Star (greedy : bool) (r : regex)
| Opt (greedy : bool) (r : regex).

(** *** Matching

    A position is the input already passed and the input still ahead. *)
Abbreviation pos := (jsstring * jsstring)%type.

Definition step1 (ok : N -> bool) (z : pos) : list pos :=
  match z.2 with
  | x :: rest => if ok x then [(z.1 ++ [x], rest)] else []
  | [] => []
  end.

Definition at_start (z : pos) : bool :=
  match z.1 with [] => true | _ => false end.

Definition at_end (z : pos) : bool :=
  match z.2 with [] => true | _ => false end.

Definition word_before (z : pos) : bool :=
  match last z.1 with Some c => is_word c | None => false end.

Definition word_after (z : pos) : bool :=
  match z.2 with c :: _ => is_word c | [] => false end.

(** An iteration of a repetition that consumes nothing is rejected
    (RepeatMatcher, step 2.1 of its continuation). *)
Definition progress (z z' : pos) : bool :=
  (length z'.2 <? length z.2)%nat.

Definition by_priority (greedy : bool) (more : list pos) (z : pos) : list pos :=
  if greedy then more ++ [z] else z :: more.

Fixpoint star_loop (f : pos -> list pos) (greedy : bool) (n : nat) (z : pos)
  : list pos :=
  match n with
  | O => [z]
  | S n' =>
      by_priority greedy
        (flat_map (fun z' => if progress z z' then star_loop f greedy n' z' else [])
                  (f z))
        z
  end.

(** [ends r z]: the positions at which a match of [r] begun at [z] can
    end, in the order in which backtracking tries them. *)
Fixpoint ends (r : regex) (z : pos) : list pos :=
  match r with
  | Empty => [z]
  | Char c => step1 (N.eqb c) z
  | Dot => step1 (fun x => negb (is_line_terminator x)) z
  | Class neg k => step1 (fun x => xorb neg (in_class k x)) z
  | Bol => if at_start z then [z] else []
  | Eol => if at_end z then [z] else []
  | WordB neg =>
      if xorb neg (xorb (word_before z) (word_after z)) then [z] else []
  | Seq r1 r2 => flat_map (ends r2) (ends r1 z)
  | Alt r1 r2 => ends r1 z ++ ends r2 z
  | Star g r1 => star_loop (ends r1) g (length z.2) z
  | Opt g r1 => by_priority g (filter (progress z) (ends r1 z)) z
  end.

(** The first match of [r] at position [z], if any. *)
Definition match_here (r : regex) (z : pos) : option pos :=
  head (ends r z).

(** [RegExp.prototype.exec] of a pattern without the [g] flag: the
    leftmost start with a match; the result is the text before the
    match and the position where the match ends. *)
Fixpoint scan (r : regex) (p s : jsstring) : option (jsstring * pos) :=
  match match_here r (p, s) with
  | Some z' => Some (p, z')
  | None =>
      match s with
      | [] => None
      | x :: s' => scan r (p ++ [x]) s'
      end
  end.

Definition exec (r : regex) (s : jsstring) : option (jsstring * pos) :=
  scan r [] s.

(** [RegExp.prototype.test]. *)
Definition test (r : regex) (s : jsstring) : bool :=
  match exec r s with Some _ => true | None => false end.

(** [s.replace(r, '')] for a pattern without the [g] flag. *)
Definition replace_first (r : regex) (s : jsstring) : jsstring :=
  match exec r s with
  | Some (p, (_, rest)) => p ++ rest
  | None => s
  end.

(** [s.replace(r, '')] for a pattern with the [g] flag: [p] is the input
    passed so far, [skip] the number of characters of the current match
    still to drop.  After an empty match the search moves on by one. *)
Fixpoint replace_all_from (r : regex) (p s : jsstring) (skip : nat) : jsstring :=
  match skip, s with
  | S k, x :: s' => replace_all_from r (p ++ [x]) s' k
  | S _, [] => []
  | O, [] => []
  | O, x :: s' =>
      match match_here r (p, s) with
      | Some z' =>
          match (length z'.1 - length p)%nat with
          | O => x :: replace_all_from r (p ++ [x]) s' 0
          | S k => replace_all_from r (p ++ [x]) s' k
          end
      | None => x :: replace_all_from r (p ++ [x]) s' 0
      end
  end.

Definition replace_all (r : regex) (s : jsstring) : jsstring :=
  replace_all_from r [] s 0.

(** [s.replace(t, '')] for a string [t]: the first occurrence of [t] in [s]
    is removed. *)
Fixpoint replace_string (t s : jsstring) {struct s} : jsstring :=
  if bool_decide (take (length t) s = t) then drop (length t) s
  else match s with
       | [] => []
       | x :: s' => x :: replace_string t s'
       end.

(** *** Parsing pattern text (ES5.1 section 15.10.1) *)

(** The part a character plays in pattern text: the syntax characters
    caret, dollar, backslash, dot, star, plus, question mark, the two
    parentheses and the bar; square brackets and braces (character classes
    and counted repetition, which the model leaves out); any other
    character stands for itself. *)
Inductive syntax_kind :=
| KLit | KCaret | KDollar | KBackslash | KDot | KStar | KPlus | KQuest
| KOpen | KClose | KBar | KBracket.

Definition kind (c : N) : syntax_kind :=
  if (c =? 94)%N then KCaret
  else if (c =? 36)%N then KDollar
  else if (c =? 92)%N then KBackslash
  else if (c =? 46)%N then KDot
  else if (c =? 42)%N then KStar
  else if (c =? 43)%N then KPlus
  else if (c =? 63)%N then KQuest
  else if (c =? 40)%N then KOpen
  else if (c =? 41)%N then KClose
  else if (c =? 124)%N then KBar
  else if ((c =? 91) || (c =? 93) || (c =? 123) || (c =? 125))%N then KBracket
  else KLit.

(** The alternatives of a group under construction, most recent first,
    and the terms of its current alternative, most recent first. *)
Record frame := Frame { alts : list regex; terms : list regex }.

Record pstate := PState {
  stack : list frame;
  cur : frame;
  quantifiable : bool
}.

Definition seq_of (ts : list regex) : regex :=
  fold_left (fun acc t => Seq t acc) ts Empty.

Definition alt_of (f : frame) : regex :=
  fold_left (fun acc a => Alt a acc) (alts f) (seq_of (terms f)).

Definition push (t : regex) (q : bool) (st : pstate) : pstate :=
  PState (stack st) (Frame (alts (cur st)) (t :: terms (cur st))) q.

Definition next_alt (st : pstate) : pstate :=
  PState (stack st) (Frame (seq_of (terms (cur st)) :: alts (cur st)) []) false.

Definition open_group (st : pstate) : pstate :=
  PState (cur st :: stack st) (Frame [] []) false.

Definition close_group (st : pstate) : option pstate :=
  match stack st with
  | [] => None
  | f :: fs => Some (PState fs (Frame (alts f) (alt_of (cur st) :: terms f)) true)
  end.

Definition apply_quantifier (k : syntax_kind) (greedy : bool) (t : regex) : regex :=
  match k with
  | KStar => Star greedy t
  | KPlus => Seq t (Star greedy t)
  | _ => Opt greedy t
  end.

Definition quantify (k : syntax_kind) (greedy : bool) (st : pstate) : option pstate :=
  if quantifiable st then
    match terms (cur st) with
    | t :: ts =>
        Some (PState (stack st)
                     (Frame (alts (cur st)) (apply_quantifier k greedy t :: ts))
                     false)
    | [] => None
    end
  else None.

(** The term an escape [\e] stands for and whether it may be quantified;
    [None] for the escapes left out of the model. *)
Definition escape (e : N) : option (regex * bool) :=
  if (e =? 115)%N then Some (Class false CSpace, true)
  else if (e =? 83)%N then Some (Class true CSpace, true)
  else if (e =? 100)%N then Some (Class false CDigit, true)
  else if (e =? 68)%N then Some (Class true CDigit, true)
  else if (e =? 119)%N then Some (Class false CWord, true)
  else if (e =? 87)%N then Some (Class true CWord, true)
  else if (e =? 98)%N then Some (WordB false, false)
  else if (e =? 66)%N then Some (WordB true, false)
  else if (e =? 116)%N then Some (Char 9, true)
  else if (e =? 110)%N then Some (Char 10, true)
  else if (e =? 118)%N then Some (Char 11, true)
  else if (e =? 102)%N then Some (Char 12, true)
  else if (e =? 114)%N then Some (Char 13, true)
  else if is_word e || (128 <=? e)%N then None
  else Some (Char e, true).

Definition hex_digit (c : N) : option N :=
  if ((48 <=? c) && (c <=? 57))%N then Some (c - 48)%N
  else if ((97 <=? c) && (c <=? 102))%N then Some (c - 87)%N
  else if ((65 <=? c) && (c <=? 70))%N then Some (c - 55)%N
  else None.

(** The code unit of [\uXXXX] from its four hexadecimal digits. *)
Definition hex4 (a b c d : N) : option N :=
  match hex_digit a, hex_digit b, hex_digit c, hex_digit d with
  | Some x, Some y, Some z, Some t => Some (((x * 16 + y) * 16 + z) * 16 + t)%N
  | _, _, _, _ => None
  end.

(** What the constructor makes of pattern text: a pattern, a SyntaxError,
    or text that uses a construct the model does not cover. *)
Inductive parsed :=
| Parsed (r : regex)
| SyntaxErr
| NotModelled.

Definition continue (k : pstate -> parsed) (o : option pstate) : parsed :=
  match o with Some st => k st | None => SyntaxErr end.

(** One pass over the text.  A group that is still open at the end, a
    closing parenthesis without its opening one, a quantifier with nothing
    to repeat (at the start of an alternative, behind an assertion or behind
    another quantifier) and a lone backslash at the end are SyntaxErrors.
    [(?:] opens a group without capture and a plain parenthesis a capturing
    one, which matches the same way since nothing reads the captures; a
    question mark behind a quantifier makes it lazy. *)
Fixpoint parse (s : jsstring) (st : pstate) : parsed :=
  match s with
  | [] =>
      match stack st with
      | [] => Parsed (alt_of (cur st))
      | _ :: _ => SyntaxErr
      end
  | c :: s1 =>
      match kind c with
      | KLit => parse s1 (push (Char c) true st)
      | KDot => parse s1 (push Dot true st)
      | KCaret => parse s1 (push Bol false st)
      | KDollar => parse s1 (push Eol false st)
      | KBar => parse s1 (next_alt st)
      | KClose => continue (parse s1) (close_group st)
      | KBracket => NotModelled
      | KOpen =>
          match s1 with
          | q :: s2 =>
              if (q =? 63)%N then
                match s2 with
                | k :: s3 =>
                    if (k =? 58)%N then parse s3 (open_group st) else NotModelled
                | [] => SyntaxErr
                end
              else parse s1 (open_group st)
          | [] => SyntaxErr
          end
      | KBackslash =>
          match s1 with
          | e :: s2 =>
              if (e =? 117)%N then
                match s2 with
                | a :: b :: c' :: d :: s6 =>
                    match hex4 a b c' d with
                    | Some u => parse s6 (push (Char u) true st)
                    | None => NotModelled
                    end
                | _ => NotModelled
                end
              else
                match escape e with
                | Some (t, q) => parse s2 (push t q st)
                | None => NotModelled
                end
          | [] => SyntaxErr
          end
      | (KStar | KPlus | KQuest) as k =>
          match s1 with
          | q :: s2 =>
              if (q =? 63)%N then continue (parse s2) (quantify k false st)
              else continue (parse s1) (quantify k true st)
          | [] => continue (parse s1) (quantify k true st)
          end
      end
  end.

(** [new RegExp(pattern)]: the parsed pattern, or the reason there is none. *)
Definition compile (pattern : jsstring) : parsed :=
  parse pattern (PState [] (Frame [] []) false).

End RegExp.

(** ** Elements, the collection and the module's private state *)

Module Style.
Import Chars RegExp.

(** What this file reads and writes of a DOM element: the [className]
    string and the inline style, the declarations and other properties that
    the element's style object holds, by name. *)
Record element := Element {
  className : jsstring;
  style : gmap jsstring jsstring
}.

(** A [RegExp] object: its identity (the number of patterns compiled
    before it) and its parsed pattern. *)
Record regexp := RegExpObj { re_id : nat; re_ast : regex }.

(** The exceptions of the platform, and [Raised] for what a caller's
    callback throws. *)
Inductive exn := SyntaxError | TypeError | Raised (tag : nat).

(** What a callback is called with: a computed value or an element. *)
Inductive value := VStr (s : jsstring) | VEl (el : nat).

(** Elements are handles into the document: [heap w el] is the state of
    the element with handle [el]. *)
Abbreviation heap_t := (nat -> element).

(** A caller's callback sees its argument and may change elements; it
    returns normally or throws. *)
Abbreviation callback := (value -> heap_t -> heap_t * option exn).

(** What the style object stores when [el.style[prop] = val] is executed.
    That is the platform's matter (CSSOM, "set a CSS declaration"), not this
    file's: an invalid value stores nothing, a valid value is stored in its
    normal form, a shorthand stores its longhands, the empty value removes
    the declaration ([None]), [cssText] replaces every declaration
    ([replaces]), and a name that is no CSS property becomes a property of
    the object.  What is stored depends on the property and the value, not
    on what the object held before. *)
Record assignment := Assignment {
  replaces : bool;
  declarations : list (jsstring * option jsstring)
}.

(** The platform under the file: the computed style, the value of
    [getPropertyValue(p)] on the computed style of [el], as a function of the
    document's state; what an assignment to a property of a style object
    stores; and the text [String(v)] of the value [v] that a name of
    [Object.prototype] holds, which is implementation-defined. *)
Record platform := Platform {
  computed : heap_t -> nat -> jsstring -> jsstring;
  assigned : jsstring -> jsstring -> assignment;
  text_of : jsstring -> jsstring
}.

(** The state: the elements; the own properties of the object
    [reClassNameCache]; how many [RegExp] objects have been constructed; the
    arguments of the callback invocations so far, oldest first; and the
    platform. *)
Record world := World {
  heap : heap_t;
  reClassNameCache : gmap jsstring regexp;
  compiled : nat;
  calls : list value;
  host : platform
}.

Definition cascade (w : world) : heap_t -> nat -> jsstring -> jsstring :=
  computed (host w).

Definition set_heap (h : heap_t) (w : world) : world :=
  World h (reClassNameCache w) (compiled w) (calls w) (host w).

Definition update (el : nat) (e : element) (h : heap_t) : heap_t :=
  fun l => if decide (l = el) then e else h l.

(** *** Outcomes: a value, an exception, or behaviour outside the model *)

Inductive result (A : Type) :=
| Ok (a : A) (w : world)
| Throw (e : exn) (w : world)
| Unmodelled.
Arguments Ok {A} a w.
Arguments Throw {A} e w.
Arguments Unmodelled {A}.

Definition M (A : Type) : Type := world -> result A.

Definition ret {A} (a : A) : M A := fun w => Ok a w.

Definition bind {A B} (m : M A) (f : A -> M B) : M B :=
  fun w =>
    match m w with
    | Ok a w' => f a w'
    | Throw e w' => Throw e w'
    | Unmodelled => Unmodelled
    end.

Definition throw {A} (e : exn) : M A := fun w => Throw e w.

Declare Scope js_scope.
Delimit Scope js_scope with js.
Notation "'do' x <- m ; k" := (bind m (fun x => k))
  (at level 10, x name, m at level 100, k at level 200) : js_scope.
Local Open Scope js_scope.

(** *** The helpers of lines 14-24 and 252-260 *)

(** [/^(\s|\u00A0)+|(\s|\u00A0)+$/g] *)
Definition rtrim_source : jsstring := js "^(\s|\u00A0)+|(\s|\u00A0)+$".

Definition rtrim : regex :=
  Eval vm_compute in
    match compile rtrim_source with Parsed r => r | _ => Empty end.

Definition trim (text : jsstring) : jsstring := replace_all rtrim text.

(** The names the cache object, an object literal, inherits from
    [Object.prototype] (ES5.1 section 15.2.4 and the accessors of Annex B):
    reading them yields a function or an object, neither falsy nor a
    [RegExp]. *)
Definition Object_prototype_names : list jsstring :=
  map js ["constructor"; "toString"; "toLocaleString"; "valueOf";
          "hasOwnProperty"; "isPrototypeOf"; "propertyIsEnumerable";
          "__proto__"; "__defineGetter__"; "__defineSetter__";
          "__lookupGetter__"; "__lookupSetter__"]%string.

Definition inherited (name : jsstring) : bool :=
  bool_decide (name ∈ Object_prototype_names).

(** What [reClassNameCache[k]] evaluates to when it is not [undefined]. *)
Inductive cached :=
| Own (re : regexp)
| Inherited (name : jsstring).

Definition cache_get (w : world) (k : jsstring) : option cached :=
  match reClassNameCache w !! k with
  | Some re => Some (Own re)
  | None => if inherited k then Some (Inherited k) else None
  end.

Definition pattern_of (className : jsstring) : jsstring :=
  js "(?:^|\s+)" ++ className ++ js "(?:\s+|$)".

Definition getClassRegEx (className : jsstring) : M cached :=
  fun w =>
    match cache_get w className with
    | Some re => Ok re w
    | None =>
        match compile (pattern_of className) with
        | Parsed r =>
            let re := RegExpObj (compiled w) r in
            Ok (Own re)
               (World (heap w) (<[className := re]> (reClassNameCache w))
                      (S (compiled w)) (calls w) (host w))
        | SyntaxErr => Throw SyntaxError w
        | NotModelled => Unmodelled
        end
    end.

(** [re.test(s)]: an inherited function or object has no [test]. *)
Definition re_test (re : cached) (s : jsstring) : M bool :=
  match re with
  | Own re => ret (test (re_ast re) s)
  | Inherited _ => throw TypeError
  end.

(** [s.replace(re, '')]: for a value that is not a [RegExp] the first
    occurrence of its text is searched for (ES5.1 section 15.5.4.11). *)
Definition re_replace (re : cached) (s : jsstring) : M jsstring :=
  match re with
  | Own re => ret (replace_first (re_ast re) s)
  | Inherited name => fun w => Ok (replace_string (text_of (host w) name) s) w
  end.

Definition get_className (el : nat) : M jsstring :=
  fun w => Ok (className (heap w el)) w.

Definition set_className (el : nat) (s : jsstring) : M unit :=
  fun w => Ok tt (set_heap (update el (Element s (style (heap w el))) (heap w)) w).

(** One declaration stored or removed. *)
Definition declare (d : jsstring * option jsstring) (m : gmap jsstring jsstring)
  : gmap jsstring jsstring :=
  match d.2 with
  | Some v => <[d.1 := v]> m
  | None => delete d.1 m
  end.

(** The style object after an assignment. *)
Definition assign_style (a : assignment) (m : gmap jsstring jsstring)
  : gmap jsstring jsstring :=
  fold_left (fun m d => declare d m) (declarations a)
            (if replaces a then ∅ else m).

(** [el.style[prop] = val] *)
Definition set_style (el : nat) (prop val : jsstring) : M unit :=
  fun w =>
    Ok tt (set_heap (update el (Element (className (heap w el))
                                        (assign_style (assigned (host w) prop val)
                                                      (style (heap w el))))
                            (heap w)) w).

(** The helper [hasClass(el, className)] of line 14. *)
Definition hasClass_helper (el : nat) (cn : jsstring) : M bool :=
  do re <- getClassRegEx cn ;
  do s <- get_className el ;
  re_test re s.

(** *** The collection *)

(** Modelled from the spec: the iteration of [each], a method of the
    element collection that is not in this file: "applies fn to every
    element, synchronously, in sequence order". *)
Fixpoint each_from (fn : nat -> M unit) (els : list nat) : M unit :=
  match els with
  | [] => ret tt
  | el :: rest => do _ <- fn el ; each_from fn rest
  end.

(** Modelled from the spec: the element collection the methods are
    attached to, "an ordered sequence of element handles", "never mutated
    in size by this component".  It is an object, known by its identity
    [oid]; [this[0]] and [this.length] read [elems]. *)
Record collection := Collection { oid : nat; elems : list nat }.

(** Modelled from the spec: [each(fn)] of the element collection, which
    "returns the collection itself for chaining". *)
Definition each (fn : nat -> M unit) (this : collection) : M collection :=
  do _ <- each_from fn (elems this) ; ret this.

(** What a method hands back: a collection object, a string or a boolean. *)
Inductive retval :=
| RColl (this : collection)
| RStr (s : jsstring)
| RBool (b : bool).

(** Calling [callback(v)]; calling [undefined] is a TypeError. *)
Definition invoke (cb : option callback) (v : value) : M unit :=
  fun w =>
    match cb with
    | None => Throw TypeError w
    | Some f =>
        let w1 := World (heap w) (reClassNameCache w) (compiled w)
                        (calls w ++ [v]) (host w) in
        match f v (heap w) with
        | (h, None) => Ok tt (set_heap h w1)
        | (h, Some e) => Throw e (set_heap h w1)
        end
    end.

(** *** The methods of lines 54-243

    The function a method passes to [each] is named after the method. *)

Definition setStyle_fn (prop val : jsstring) (el : nat) : M unit :=
  set_style el prop val.

Definition setStyle (prop val : jsstring) (this : collection) : M retval :=
  do c <- each (setStyle_fn prop val) this ;
  ret (RColl c).

Definition gs (el : nat) (p : jsstring) : M jsstring :=
  fun w => Ok (cascade w (heap w) el p) w.



Definition addClass_fn (cn : jsstring) (el : nat) : M unit :=
  do b <- hasClass_helper el cn ;
  if b then ret tt
  else do s <- get_className el ;
       set_className el (trim (s ++ js " " ++ cn)).

Definition addClass (cn : jsstring) (this : collection) : M retval :=
  do c <- each (addClass_fn cn) this ;
  ret (RColl c).

Definition hasClass_fn (cb : option callback) (el : nat) : M unit :=
  do s <- get_className el ;
  do b <- hasClass_helper el s ;
  if b then invoke cb (VEl el) else ret tt.

(** The parameter [cn] is the method's [className]; the body never reads it. *)
Definition hasClass (cn : option jsstring) (cb : option callback)
           (this : collection) : M retval :=
  match cb, elems this with
  | None, [el] =>
      do s <- get_className el ;
      do b <- hasClass_helper el s ;
      ret (RBool b)
  | _, _ =>
      do c <- each (hasClass_fn cb) this ;
      ret (RColl c)
  end.

Definition removeClass_all_fn (el : nat) : M unit :=
  set_className el [].

Definition removeClass_fn (re : cached) (el : nat) : M unit :=
  do s <- get_className el ;
  do s' <- re_replace re s ;
  set_className el s'.

Definition removeClass (cn : option jsstring) (this : collection) : M retval :=
  match cn with
  | None =>
      do _ <- each removeClass_all_fn this ;
      ret (RColl this)
  | Some cn =>
      do re <- getClassRegEx cn ;
      do _ <- each (removeClass_fn re) this ;
      ret (RColl this)
  end.

(** [for (var prop in o) body(prop, o[prop])] over the enumerable
    properties of [o] in enumeration order. *)
Fixpoint for_in (o : list (jsstring * jsstring))
         (body : jsstring -> jsstring -> M unit) : M unit :=
  match o with
  | [] => ret tt
  | (prop, val) :: rest => do _ <- body prop val ; for_in rest body
  end.

Definition css_fn (o : list (jsstring * jsstring)) (that : collection) (el : nat)
  : M unit :=
  for_in o (fun prop val => do _ <- setStyle prop val that ; ret tt).

Definition css (o : list (jsstring * jsstring)) (this : collection) : M retval :=
  do c <- each (css_fn o this) this ;
  ret (RColl c).

(** *** Sequences of method calls *)



(** The state a call leaves behind, whether it returns or throws. *)
Definition left_by {A} (r : result A) : option world :=
  match r with
  | Ok _ w => Some w
  | Throw _ w => Some w
  | Unmodelled => None
  end.


(** The module as loaded: nothing cached, nothing compiled. *)
Definition fresh (h : heap_t) (pf : platform) : world :=
  World h ∅ 0 [] pf.

(** Every cached pattern is the one compiled from its class name, and as
    many patterns have been compiled as there are class names cached. *)
Definition cache_ok (w : world) : Prop :=
  (forall k re, reClassNameCache w !! k = Some re ->
                compile (pattern_of k) = Parsed (re_ast re)
                /\ inherited k = false)
  /\ size (reClassNameCache w) = compiled w.

(** What [w'] keeps of the cache of [w]: every entry, no entry under an
    inherited name where there was none, and the invariant [cache_ok]. *)
Definition cache_le (w w' : world) : Prop :=
  reClassNameCache w ⊆ reClassNameCache w'
  /\ (forall k, inherited k = true -> reClassNameCache w !! k = None ->
                reClassNameCache w' !! k = None)
  /\ (cache_ok w -> cache_ok w').

Definition preserves {A} (m : M A) : Prop :=
  forall w, match left_by (m w) with
            | Some w' => cache_le w w'
            | None => True
            end.

End Style.

(** ** Class tokens *)

Module Tokens.
Import Chars RegExp Style.

(** The pieces of [s] between white space characters, empty ones included. *)
Fixpoint fields (s : jsstring) : list jsstring :=
  match s with
  | [] => [[]]
  | c :: s' =>
      if is_space c then [] :: fields s'
      else match fields s' with
           | f :: fs => (c :: f) :: fs
           | [] => [[c]]
           end
  end.

(** The class tokens of a [className] string: its white-space-delimited
    entries. *)
Definition tokens (s : jsstring) : list jsstring :=
  List.filter (fun f => negb (bool_decide (f = []))) (fields s).

(** The leading white space of [s] and what follows it. *)
Fixpoint spaces (s : jsstring) : jsstring :=
  match s with
  | c :: s' => if is_space c then c :: spaces s' else []
  | [] => []
  end.

Fixpoint after_spaces (s : jsstring) : jsstring :=
  match s with
  | c :: s' => if is_space c then after_spaces s' else s
  | [] => []
  end.

(** [s] without its trailing white space. *)
Fixpoint rstrip (s : jsstring) : jsstring :=
  match s with
  | c :: s' => if forallb is_space s then [] else c :: rstrip s'
  | [] => []
  end.

Definition strip (s : jsstring) : jsstring := rstrip (after_spaces s).

(** A class name written with ordinary pattern characters only: no
    character of the pattern syntax, no white space. *)
Definition plain_char (c : N) : bool :=
  match kind c with KLit => negb (is_space c) | _ => false end.

(** A plain class name: not empty, of plain characters, and not a name
    the cache object inherits. *)
Definition plain (cn : jsstring) : bool :=
  negb (bool_decide (cn = [])) && forallb plain_char cn && negb (inherited cn).

(** The pattern [getClassRegEx] compiles for a plain class name. *)
Definition some_spaces : regex :=
  Seq (Class false CSpace) (Star true (Class false CSpace)).

Definition class_regex (cn : jsstring) : regex :=
  Seq (Alt (Seq Bol Empty) (Seq some_spaces Empty))
      (fold_right Seq
                  (Seq (Alt (Seq some_spaces Empty) (Seq Eol Empty)) Empty)
                  (map Char cn)).

(** Where a match of [class_regex cn] begun at [(p, s)] ends: after the
    white space at the head of [s] (required unless [p] is empty), the
    name, and all the white space behind it (required unless the input
    ends there). *)
Definition match_at (cn : jsstring) (z : pos) : option pos :=
  let w1 := spaces z.2 in
  let s1 := after_spaces z.2 in
  if bool_decide (w1 = []) && negb (bool_decide (z.1 = [])) then None
  else if bool_decide (take (length cn) s1 = cn) then
    let s2 := drop (length cn) s1 in
    match spaces s2, s2 with
    | [], _ :: _ => None
    | w2, _ => Some (z.1 ++ w1 ++ cn ++ w2, after_spaces s2)
    end
  else None.

Definition ends_with_space (a : jsstring) : Prop :=
  exists a' c, a = a' ++ [c] /\ is_space c = true.

Definition starts_with_space (b : jsstring) : Prop :=
  exists c b', b = c :: b' /\ is_space c = true.

(** What stands before and behind a whole token: nothing or white space. *)
Definition delimits (a b : jsstring) : Prop :=
  (a = [] \/ ends_with_space a) /\ (b = [] \/ starts_with_space b).

(** The pieces of the pattern [rtrim]. *)
Definition trim_space : regex :=
  Alt (Seq (Class false CSpace) Empty) (Seq (Char 160) Empty).

Definition trim_spaces : regex := Seq trim_space (Star true trim_space).

Definition nospace (u : jsstring) : Prop :=
  Forall (fun c => is_space c = false) u.

(** A text whose first character is not white space. *)
Definition starts_nospace (cn : jsstring) : Prop :=
  exists c0 cn', cn = c0 :: cn' /\ is_space c0 = false.

(** Text made of pattern characters that stand for themselves. *)
Definition literal (cn : jsstring) : Prop := Forall (fun c => kind c = KLit) cn.

(** Matching only moves forward in the input. *)
Definition extends (z z' : pos) : Prop :=
  exists a, z'.1 = z.1 ++ a /\ z.2 = a ++ z'.2.

(** The pattern [\s]. *)
Definition space := Class false CSpace.

(** The group [(?:\s+|$)] as it is parsed. *)
Definition suffix_group : regex :=
  Seq (Alt (Seq some_spaces Empty) (Seq Eol Empty)) Empty.

End Tokens.

(** ** What a method does to one element *)

Module Effects.
Import Chars RegExp Style Tokens.

Definition with_style (a : assignment) (e : element) : element :=
  Element (className e) (assign_style a (style e)).

Definition with_styles (pf : platform) (o : list (jsstring * jsstring))
           (e : element) : element :=
  fold_left (fun e kv => with_style (assigned pf kv.1 kv.2) e) o e.

Definition without_classes (e : element) : element :=
  Element [] (style e).

Definition without_class (r : regex) (e : element) : element :=
  Element (replace_first r (className e)) (style e).

(** What [s.replace(re, '')] evaluates to, for a pattern or for an
    inherited value. *)
Definition replaced (pf : platform) (re : cached) (s : jsstring) : jsstring :=
  match re with
  | Own re => replace_first (re_ast re) s
  | Inherited name => replace_string (text_of pf name) s
  end.

Definition without_match (pf : platform) (re : cached) (e : element) : element :=
  Element (replaced pf re (className e)) (style e).

Definition with_class (cn : jsstring) (e : element) : element :=
  if test (class_regex cn) (className e) then e
  else Element (trim (className e ++ js " " ++ cn)) (style e).

(** The inline style after the assignments of [o], in order. *)
Definition assign (pf : platform) (o : list (jsstring * jsstring))
           (m : gmap jsstring jsstring) : gmap jsstring jsstring :=
  fold_left (fun m kv => assign_style (assigned pf kv.1 kv.2) m) o m.

(** What an assignment stores under the key [k], if it stores or removes
    anything there: the last declaration for [k], or the removal of
    everything. *)
Definition written (a : assignment) (k : jsstring) : option (option jsstring) :=
  fold_left (fun r d => if decide (d.1 = k) then Some d.2 else r)
            (declarations a)
            (if replaces a then Some None else None).

(** What the assignments of [o], in order, leave under the key [k]. *)
Definition written_by (pf : platform) (o : list (jsstring * jsstring))
           (k : jsstring) : option (option jsstring) :=
  fold_left (fun r kv => match written (assigned pf kv.1 kv.2) k with
                         | Some v => Some v
                         | None => r
                         end) o None.

(** In the spec's words: [setStyle(key, o[key])] on the whole collection,
    for each key of [o] in sequence. *)
Definition setStyle_each_key (o : list (jsstring * jsstring)) (this : collection)
  : M retval :=
  bind (for_in o (fun prop val => bind (setStyle prop val this) (fun _ => ret tt)))
       (fun _ => ret (RColl this)).

(** How often [each] visits [el]. *)
Definition visits (el : nat) (this : list nat) : nat :=
  count_occ Nat.eq_dec this el.

(** Everything but the elements is as before. *)
Definition same_but_heap (w w' : world) : Prop :=
  reClassNameCache w' = reClassNameCache w /\ compiled w' = compiled w
  /\ calls w' = calls w /\ host w' = host w.

(** Everything but the cache is as before. *)
Definition same_but_cache (w w' : world) : Prop :=
  heap w' = heap w /\ calls w' = calls w /\ host w' = host w
  /\ cache_le w w'.

(** What [addClass] may change besides the elements: the cache grows. *)
Definition addClass_frame (w w' : world) : Prop :=
  calls w' = calls w /\ host w' = host w /\ cache_le w w'.

End Effects.

(** ** Example documents *)

Module Examples.
Import RegExp Style.

(** Elements without classes or inline style. *)
Definition blank : heap_t := fun _ => Element [] ∅.

(** A document whose elements all have the class string [s]. *)
Definition all_with (s : jsstring) : heap_t := fun _ => Element s ∅.

(** A platform that stores every value as it is given, under the name it
    is given for. *)
Definition verbatim (prop val : jsstring) : assignment :=
  Assignment false [(prop, Some val)].

(** A platform that knows the shorthand [margin] with its four longhands
    and accepts for them nothing but lengths in [px] and a plain zero, which
    it stores as [0px]; other names become properties of the style
    object. *)
Definition is_px (val : jsstring) : bool :=
  match rev val with
  | x :: p :: ds =>
      bool_decide (x = 120%N) && bool_decide (p = 112%N)
      && negb (bool_decide (ds = [])) && forallb Chars.is_digit ds
  | _ => false
  end.

Definition margin_sides : list jsstring :=
  map js ["margin-top"; "margin-right"; "margin-bottom"; "margin-left"]%string.

Definition margins (prop val : jsstring) : assignment :=
  let length_of v := if bool_decide (v = js "0") then Some (js "0px")
                     else if is_px v then Some v else None in
  if bool_decide (prop = js "margin") then
    match length_of val with
    | Some v => Assignment false (map (fun side => (side, Some v)) margin_sides)
    | None => Assignment false []
    end
  else if bool_decide (prop ∈ margin_sides) then
    match length_of val with
    | Some v => Assignment false [(prop, Some v)]
    | None => Assignment false []
    end
  else Assignment false [(prop, Some val)].

(** The text of a built-in function. *)
Definition native_text (name : jsstring) : jsstring :=
  js "function " ++ name ++ js "() { [native code] }".

(** A platform whose computed style is the inline style, or the empty
    string, and whose style objects store what they are given. *)
Definition inline_only : platform :=
  Platform (fun h el p => default [] (style (h el) !! p)) verbatim native_text.

(** The same with style objects that know [margin]. *)
Definition with_margins : platform :=
  Platform (fun h el p => default [] (style (h el) !! p)) margins native_text.


(** Removing the first pattern match from a string, for pattern text [p]. *)
Definition remove (p s : string) : option jsstring :=
  match compile (js p) with
  | Parsed r => Some (replace_first r (js s))
  | _ => None
  end.

End Examples.

(** ** Further notions for the class and style methods *)

Module More.
Import Chars RegExp Style Tokens Effects.


(** The tokens left when the token between [ts1] and [ts2] is removed
    together with the white space on both its sides: the last token of [ts1]
    and the first of [ts2] become one. *)
Definition fuse (ts1 ts2 : list jsstring) : list jsstring :=
  match ts2 with
  | [] => ts1
  | b :: tq =>
      match rev ts1 with
      | [] => ts2
      | a :: rp => rev rp ++ (a ++ b) :: tq
      end
  end.

(** No two properties of [o] make the platform store or remove something
    under a common key, as a shorthand and one of its longhands would. *)
Definition separate (pf : platform) (o : list (jsstring * jsstring)) : Prop :=
  forall kv kv' k, kv ∈ o -> kv' ∈ o ->
    written (assigned pf kv.1 kv.2) k <> None ->
    written (assigned pf kv'.1 kv'.2) k <> None -> kv = kv'.

(** No element of the document has another inline style in [w'] than in [w]. *)
Definition same_styles (w w' : world) : Prop :=
  forall el, style (heap w' el) = style (heap w el).

(** No element of the document has another className in [w'] than in [w]. *)
Definition same_classNames (w w' : world) : Prop :=
  forall el, className (heap w' el) = className (heap w el).

End More.

(** ** Facts about the matcher *)

Module RegExpFacts.
Import Chars RegExp Style Tokens.

Lemma flat_map_singleton {A} (l : list A) : flat_map (fun x => [x]) l = l.
Proof. induction l as [|x l IH]; simpl; [done | by rewrite IH]. Qed.

Lemma flat_map_none {A B} (f : A -> list B) (l : list A) :
  Forall (fun x => f x = []) l -> flat_map f l = [].
Proof. induction 1 as [|x l Hx _ IH]; simpl; [done | by rewrite Hx, IH]. Qed.

Lemma ends_seq_empty r z : ends (Seq r Empty) z = ends r z.
Proof. simpl. apply flat_map_singleton. Qed.

Lemma extends_refl z : extends z z.
Proof. exists []. by rewrite app_nil_r. Qed.

Lemma extends_trans z1 z2 z3 : extends z1 z2 -> extends z2 z3 -> extends z1 z3.
Proof.
  intros [a [Ha1 Ha2]] [b [Hb1 Hb2]]. exists (a ++ b).
  rewrite Hb1, Ha1, Ha2, Hb2. by rewrite !app_assoc.
Qed.

Lemma step1_extends ok z z' : In z' (step1 ok z) -> extends z z'.
Proof.
  unfold step1. destruct z as [p [|x s]]; simpl; [done |].
  destruct (ok x); simpl; [|done]. intros [<- | []]. by exists [x].
Qed.

Lemma star_loop_extends f g n :
  (forall z z', In z' (f z) -> extends z z') ->
  forall z z', In z' (star_loop f g n z) -> extends z z'.
Proof.
  intros Hf. induction n as [|n IH]; intros z z'; simpl.
  - intros [<- | []]. apply extends_refl.
  - intros Hin.
    assert (Hcases : z' = z \/
              In z' (flat_map (fun z1 => if progress z z1
                                         then star_loop f g n z1 else []) (f z))).
    { destruct g; simpl in Hin.
      - apply in_app_iff in Hin as [H | [<- | []]]; auto.
      - destruct Hin as [<- | H]; auto. }
    destruct Hcases as [-> | H]; [apply extends_refl |].
    apply in_flat_map in H as [z1 [Hz1 H]].
    destruct (progress z z1); [|done].
    eapply extends_trans; [by apply Hf | by apply IH].
Qed.

Lemma ends_extends r : forall z z', In z' (ends r z) -> extends z z'.
Proof.
  induction r as [| c | | neg k | | | neg | r1 IH1 r2 IH2 | r1 IH1 r2 IH2
                  | g r IH | g r IH]; intros z z'; simpl.
  - intros [<- | []]. apply extends_refl.
  - apply step1_extends.
  - apply step1_extends.
  - apply step1_extends.
  - destruct (at_start z); [|done]. intros [<- | []]. apply extends_refl.
  - destruct (at_end z); [|done]. intros [<- | []]. apply extends_refl.
  - destruct (xorb _ _); [|done]. intros [<- | []]. apply extends_refl.
  - intros H. apply in_flat_map in H as [z1 [H1 H2]].
    eapply extends_trans; eauto.
  - intros H. apply in_app_iff in H as [H | H]; eauto.
  - by apply star_loop_extends.
  - intros Hin.
    assert (Hcases : z' = z \/ In z' (ends r z)).
    { destruct g; simpl in Hin.
      - apply in_app_iff in Hin as [H | [<- | []]]; auto.
        right. apply list_elem_of_In, list_elem_of_filter in H as [_ H].
        by apply list_elem_of_In.
      - destruct Hin as [<- | H]; auto.
        right. apply list_elem_of_In, list_elem_of_filter in H as [_ H].
        by apply list_elem_of_In. }
    destruct Hcases as [-> | H]; [apply extends_refl | by apply IH].
Qed.

(** *** Runs of white space *)

Lemma spaces_app_after s : spaces s ++ after_spaces s = s.
Proof.
  induction s as [|c s IH]; simpl; [done |].
  destruct (is_space c); simpl; [by rewrite IH | done].
Qed.

Lemma spaces_all s : forallb is_space (spaces s) = true.
Proof.
  induction s as [|c s IH]; simpl; [done |].
  destruct (is_space c) eqn:E; simpl; [by rewrite E | done].
Qed.

Lemma after_spaces_head s : spaces (after_spaces s) = [].
Proof.
  induction s as [|c s IH]; simpl; [done |].
  destruct (is_space c) eqn:E; simpl; [done | by rewrite E].
Qed.

Lemma ends_space_cons p x s :
  ends space (p, x :: s) = if is_space x then [(p ++ [x], s)] else [].
Proof. reflexivity. Qed.

Lemma star_loop_S f g n z :
  star_loop f g (S n) z
  = by_priority g
      (flat_map (fun z' => if progress z z' then star_loop f g n z' else []) (f z))
      z.
Proof. reflexivity. Qed.

Lemma progress_cons p p' x s : progress (p, x :: s) (p', s) = true.
Proof. unfold progress. simpl. apply Nat.ltb_lt. lia. Qed.

Lemma star_spaces s : forall p,
  exists shorter,
    star_loop (ends space) true (length s) (p, s)
    = (p ++ spaces s, after_spaces s) :: shorter
    /\ Forall (fun z : pos => spaces z.2 <> []) shorter.
Proof.
  induction s as [|x s IH]; intros p.
  - exists []. simpl. by rewrite app_nil_r.
  - cbn [length]. rewrite star_loop_S, ends_space_cons.
    cbn [spaces after_spaces by_priority].
    destruct (is_space x) eqn:E.
    + cbn [flat_map]. rewrite progress_cons, app_nil_r.
      destruct (IH (p ++ [x])) as [sh [-> Hsh]].
      exists (sh ++ [(p, x :: s)]). split.
      * simpl. by rewrite <- app_assoc.
      * apply Forall_app. split; [done |]. constructor; [|done].
        simpl. by rewrite E.
    + exists []. simpl. by rewrite app_nil_r.
Qed.

Lemma some_spaces_ends p s :
  exists shorter,
    ends some_spaces (p, s)
    = (if bool_decide (spaces s = []) then []
       else [(p ++ spaces s, after_spaces s)]) ++ shorter
    /\ Forall (fun z : pos => spaces z.2 <> []) shorter.
Proof.
  unfold some_spaces. fold space. cbn [ends].
  destruct s as [|x s]; [by exists [] |].
  rewrite ends_space_cons.
  cbn [spaces after_spaces]. destruct (is_space x) eqn:E; [|by exists []].
  cbn [flat_map snd]. rewrite app_nil_r.
  destruct (star_spaces s (p ++ [x])) as [sh [Heq Hsh]].
  rewrite Heq. exists sh. split; [|done].
  rewrite bool_decide_eq_false_2 by done. simpl. by rewrite <- app_assoc.
Qed.

(** *** Literal text *)

Lemma ends_lits cn k : forall p s,
  ends (fold_right Seq k (map Char cn)) (p, s)
  = if bool_decide (take (length cn) s = cn)
    then ends k (p ++ cn, drop (length cn) s) else [].
Proof.
  induction cn as [|c cn IH]; intros p s.
  - cbn [map fold_right length take]. rewrite drop_0, app_nil_r.
    by rewrite bool_decide_eq_true_2.
  - cbn [map fold_right ends length]. unfold step1. cbn [fst snd].
    destruct s as [|x s].
    + by simpl.
    + destruct (N.eqb_spec c x) as [-> | Hne].
      * cbn [flat_map]. rewrite app_nil_r, IH. cbn [take drop].
        rewrite <- (app_assoc p [x] cn). cbn [app].
        destruct (decide (take (length cn) s = cn)) as [Heq | Hneq].
        -- rewrite !bool_decide_eq_true_2; [done | by rewrite Heq | done].
        -- rewrite !bool_decide_eq_false_2; [done | congruence | done].
      * simpl. rewrite bool_decide_eq_false_2; [done | congruence].
Qed.

(** *** The class-name pattern *)

Lemma some_spaces_none p s : spaces s = [] -> ends some_spaces (p, s) = [].
Proof.
  unfold some_spaces. fold space. cbn [ends].
  destruct s as [|x s]; [done |]. rewrite ends_space_cons. cbn [spaces].
  by destruct (is_space x).
Qed.

Lemma lits_after_space cn k c0 cn' (z : pos) :
  cn = c0 :: cn' -> is_space c0 = false -> spaces z.2 <> [] ->
  ends (fold_right Seq k (map Char cn)) z = [].
Proof.
  intros -> Hc0 Hz. destruct z as [p s]. rewrite ends_lits.
  destruct s as [|x s]; [done |]. cbn [snd spaces] in Hz.
  destruct (is_space x) eqn:E; [|done].
  rewrite bool_decide_eq_false_2; [done |].
  cbn [length take]. intros [= -> _]. congruence.
Qed.

Lemma head_suffix_group q s2 :
  head (ends suffix_group (q, s2))
  = match spaces s2, s2 with
    | [], _ :: _ => None
    | w2, _ => Some (q ++ w2, after_spaces s2)
    end.
Proof.
  unfold suffix_group. rewrite ends_seq_empty. cbn [ends].
  rewrite !flat_map_singleton.
  destruct (spaces s2) as [|y w2] eqn:Hw.
  - rewrite some_spaces_none by done. cbn [app at_end snd].
    destruct s2; [|done]. simpl. by rewrite app_nil_r.
  - destruct (some_spaces_ends q s2) as [sh [-> _]].
    rewrite Hw, bool_decide_eq_false_2 by done. simpl.
    by destruct s2.
Qed.

Lemma match_here_class_regex cn c0 cn' z :
  cn = c0 :: cn' -> is_space c0 = false ->
  match_here (class_regex cn) z = match_at cn z.
Proof.
  intros Hcn Hc0. destruct z as [p s].
  unfold match_here, class_regex, match_at. fold suffix_group.
  cbn [ends fst snd]. rewrite !flat_map_singleton.
  set (g := ends (fold_right Seq suffix_group (map Char cn))).
  assert (Hg : forall sh : list pos,
             Forall (fun z : pos => spaces z.2 <> []) sh -> flat_map g sh = []).
  { intros sh Hsh. apply flat_map_none. eapply Forall_impl; [exact Hsh |].
    intros z Hz. by eapply lits_after_space. }
  rewrite flat_map_app.
  destruct (some_spaces_ends p s) as [sh [-> Hsh]].
  rewrite flat_map_app, (Hg sh Hsh), app_nil_r.
  destruct (decide (spaces s = [])) as [Hw | Hw].
  - rewrite !(bool_decide_eq_true_2 _ Hw). cbn [flat_map app_nil_r].
    rewrite app_nil_r. unfold at_start. cbn [fst].
    assert (Hs : after_spaces s = s).
    { pose proof (spaces_app_after s) as H. by rewrite Hw in H. }
    rewrite Hs, Hw. destruct p as [|a p].
    + cbn [flat_map andb negb]. rewrite bool_decide_eq_true_2 by done.
      cbn [negb andb]. rewrite app_nil_r. unfold g. rewrite ends_lits.
      destruct (bool_decide (take (length cn) s = cn)); [|done].
      rewrite head_suffix_group. cbn [app]. done.
    + cbn [flat_map]. by rewrite bool_decide_eq_false_2.
  - rewrite !(bool_decide_eq_false_2 _ Hw). cbn [andb flat_map].
    rewrite app_nil_r.
    assert (Hbol : flat_map g (if at_start (p, s) then [(p, s)] else []) = []).
    { destruct (at_start (p, s)); [|done]. apply Hg. by constructor. }
    rewrite Hbol. cbn [app]. unfold g. rewrite ends_lits.
    destruct (bool_decide (take (length cn) (after_spaces s) = cn)); [|done].
    rewrite head_suffix_group.
    destruct (spaces (drop (length cn) (after_spaces s)));
      destruct (drop (length cn) (after_spaces s));
      by rewrite <- ?app_assoc.
Qed.

(** *** Parsing the class-name pattern *)

Lemma parse_lits cn : forall s st,
  literal cn ->
  parse (cn ++ s) st = parse s (fold_left (fun st c => push (Char c) true st) cn st).
Proof.
  induction cn as [|c cn IH]; intros s st Hlit; [done |].
  inversion Hlit as [|? ? Hc Hcn]; subst.
  cbn [app parse fold_left]. rewrite Hc. by apply IH.
Qed.

Lemma push_lits cn : forall st,
  cn <> [] ->
  fold_left (fun st c => push (Char c) true st) cn st
  = PState (stack st)
           (Frame (alts (cur st)) (rev (map Char cn) ++ terms (cur st)))
           true.
Proof.
  induction cn as [|c cn IH]; intros st Hne; [done |].
  cbn [fold_left]. destruct cn as [|c' cn].
  - done.
  - rewrite IH by done. cbn [push stack cur alts terms map rev].
    by rewrite <- !app_assoc.
Qed.

Lemma seq_of_rev l acc :
  fold_left (fun acc t => Seq t acc) (rev l) acc = fold_right Seq acc l.
Proof. by rewrite <- fold_left_rev_right, rev_involutive. Qed.

Lemma compile_class_pattern cn :
  cn <> [] -> literal cn -> compile (pattern_of cn) = Parsed (class_regex cn).
Proof.
  intros Hne Hlit. unfold compile, pattern_of.
  set (pre := js "(?:^|\s+)"). vm_compute in pre. subst pre.
  set (suf := js "(?:\s+|$)"). vm_compute in suf. subst suf.
  cbn [app]. simpl. rewrite parse_lits by done. rewrite push_lits by done.
  simpl. unfold alt_of, seq_of. cbn [alts terms fold_left].
  by rewrite fold_left_app, seq_of_rev.
Qed.

(** *** The leftmost match *)

Lemma scan_none r s : forall p,
  scan r p s = None ->
  forall a b, s = a ++ b -> match_here r (p ++ a, b) = None.
Proof.
  induction s as [|x s IH]; intros p Hscan a b Hs; cbn [scan] in Hscan.
  - destruct (match_here r (p, [])) eqn:E; [done |].
    symmetry in Hs. apply app_eq_nil in Hs as [-> ->]. by rewrite app_nil_r.
  - destruct (match_here r (p, x :: s)) eqn:E; [done |].
    destruct a as [|y a]; simpl in Hs.
    + subst b. by rewrite app_nil_r.
    + injection Hs as <- ->.
      replace (p ++ x :: a) with ((p ++ [x]) ++ a) by by rewrite <- app_assoc.
      by apply IH.
Qed.

Lemma scan_some r s : forall p q z',
  scan r p s = Some (q, z') ->
  exists a b,
    s = a ++ b /\ q = p ++ a /\ match_here r (q, b) = Some z'
    /\ (forall a' b', s = a' ++ b' -> length a' < length a ->
                      match_here r (p ++ a', b') = None).
Proof.
  induction s as [|x s IH]; intros p q z' Hscan; cbn [scan] in Hscan.
  - destruct (match_here r (p, [])) eqn:E; [|done].
    injection Hscan as <- <-. exists [], [].
    split_and!; rewrite ?app_nil_r; try done.
    intros a' b' _ Hlen; simpl in Hlen; lia.
  - destruct (match_here r (p, x :: s)) eqn:E.
    + injection Hscan as <- <-. exists [], (x :: s).
      split_and!; rewrite ?app_nil_r; try done.
      intros a' b' _ Hlen; simpl in Hlen; lia.
    + apply IH in Hscan as (a & b & -> & -> & Hm & Hearlier).
      exists (x :: a), b. rewrite <- app_assoc in Hm |- *.
      split_and!; try done.
      intros a' b' Hs Hlen. destruct a' as [|y a']; simpl in Hs.
      * subst b'. by rewrite app_nil_r.
      * injection Hs as <- Hs.
        replace (p ++ x :: a') with ((p ++ [x]) ++ a') by by rewrite <- app_assoc.
        apply Hearlier; [done | simpl in Hlen; lia].
Qed.

Lemma test_true r s :
  test r s = true <-> exists a b, s = a ++ b /\ match_here r (a, b) <> None.
Proof.
  unfold test, exec. split.
  - destruct (scan r [] s) as [[q z']|] eqn:E; [|done]. intros _.
    apply scan_some in E as (a & b & -> & -> & Hm & _).
    exists a, b. split; [done |]. simpl in Hm. by rewrite Hm.
  - intros (a & b & -> & Hm).
    destruct (scan r [] (a ++ b)) as [[q z']|] eqn:E; [done |].
    exfalso. apply Hm. by apply (scan_none _ _ _ E a b).
Qed.

End RegExpFacts.

(** ** Facts about class tokens *)

Module TokenFacts.
Import Chars RegExp Style Tokens RegExpFacts.

Lemma fields_ne s : fields s <> [].
Proof.
  destruct s as [|c s]; simpl; [done |].
  destruct (is_space c); [done |]. by destruct (fields s).
Qed.

Lemma fields_nospace u : nospace u -> fields u = [u].
Proof.
  induction 1 as [|c u Hc _ IH]; simpl; [done |]. by rewrite Hc, IH.
Qed.

Lemma fields_app_space a c s :
  is_space c = true -> fields (a ++ c :: s) = fields a ++ fields s.
Proof.
  intros Hc. induction a as [|x a IH]; simpl.
  - by rewrite Hc.
  - rewrite IH. destruct (is_space x); [done |].
    pose proof (fields_ne a). by destruct (fields a).
Qed.

Lemma fields_split s :
  (nospace s /\ fields s = [s])
  \/ (exists u c r, s = u ++ c :: r /\ nospace u /\ is_space c = true
                    /\ fields s = u :: fields r).
Proof.
  induction s as [|x s IH]; [left; by split; [constructor |] |].
  simpl. destruct (is_space x) eqn:E.
  - right. exists [], x, s. by split_and!; [| constructor | |].
  - destruct IH as [[Hs ->] | (u & c & r & -> & Hu & Hc & ->)].
    + left. split; [by constructor | done].
    + right. exists (x :: u), c, r. split_and!; try done. by constructor.
Qed.

(** A field of [s] stands in [s] between delimiters. *)
Lemma in_fields_delimits f s :
  In f (fields s) -> exists a b, s = a ++ f ++ b /\ delimits a b.
Proof.
  remember (length s) as n eqn:Hn. revert s Hn.
  induction n as [n IH] using lt_wf_ind. intros s -> Hin.
  destruct (fields_split s) as [[Hs Hf] | (u & c & r & -> & Hu & Hc & Hf)];
    rewrite Hf in Hin.
  - destruct Hin as [<- | []]. exists [], []. rewrite app_nil_r.
    split; [done |]. split; by left.
  - destruct Hin as [<- | Hin].
    + exists [], (c :: r). split; [done |]. split; [by left |].
      right. by exists c, r.
    + apply (IH (length r)) in Hin as (a & b & -> & Ha & Hb);
        [| rewrite length_app; simpl; lia | done].
      exists (u ++ c :: a), b. split; [by rewrite <- app_assoc |].
      split; [|done]. right.
      destruct Ha as [-> | (a' & c' & -> & Hc')].
      * by exists u, c.
      * exists (u ++ c :: a'), c'. split; [|done].
        by rewrite <- app_assoc.
Qed.

(** A text without white space that stands between delimiters is a field. *)
Lemma delimits_in_fields f a b :
  nospace f -> delimits a b -> In f (fields (a ++ f ++ b)).
Proof.
  intros Hf [Ha Hb].
  assert (Hright : In f (fields (f ++ b))).
  { destruct Hb as [-> | (c & b' & -> & Hc)].
    - rewrite app_nil_r, fields_nospace by done. by left.
    - rewrite fields_app_space, fields_nospace by done. by left. }
  destruct Ha as [-> | (a' & c & -> & Hc)]; [done |].
  rewrite <- app_assoc. cbn [app]. rewrite fields_app_space by done.
  apply in_app_iff. by right.
Qed.

Lemma in_tokens f s : In f (tokens s) <-> In f (fields s) /\ f <> [].
Proof.
  unfold tokens. rewrite filter_In. split; intros [H1 H2]; split; try done.
  - intros ->. by rewrite bool_decide_eq_true_2 in H2.
  - by rewrite bool_decide_eq_false_2.
Qed.

(** Whole-token membership, spelled out on the string. *)
Lemma in_tokens_delimits cn s :
  cn <> [] -> nospace cn ->
  In cn (tokens s) <-> exists a b, s = a ++ cn ++ b /\ delimits a b.
Proof.
  intros Hne Hns. rewrite in_tokens. split.
  - intros [Hin _]. by apply in_fields_delimits.
  - intros (a & b & -> & Hd). split; [|done]. by apply delimits_in_fields.
Qed.

(** *** The class-name pattern and whole tokens *)

Lemma spaces_nil_or_starts s : spaces s = [] \/ starts_with_space s.
Proof.
  destruct s as [|c s]; [by left |]. simpl.
  destruct (is_space c) eqn:E; [right; by exists c, s | by left].
Qed.

Lemma spaces_ends_with_space s : spaces s <> [] -> ends_with_space (spaces s).
Proof.
  intros Hne. pose proof (spaces_all s) as Hall.
  destruct (spaces s) as [|c w] using rev_ind; [done |].
  exists w, c. split; [done |].
  rewrite forallb_app in Hall. simpl in Hall.
  by destruct (is_space c); [| rewrite andb_false_r in Hall].
Qed.

Lemma match_at_some cn a b q post :
  match_at cn (a, b) = Some (q, post) ->
  exists w2,
    b = spaces b ++ cn ++ w2 ++ post
    /\ q = a ++ spaces b ++ cn ++ w2
    /\ forallb is_space w2 = true
    /\ (spaces b = [] -> a = [])
    /\ (w2 = [] -> post = [])
    /\ spaces post = [].
Proof.
  unfold match_at. cbn [fst snd].
  destruct (bool_decide (spaces b = []) && negb (bool_decide (a = []))) eqn:Hc1;
    [done |].
  destruct (bool_decide (take (length cn) (after_spaces b) = cn)) eqn:Hc2; [|done].
  apply bool_decide_eq_true_1 in Hc2.
  set (s2 := drop (length cn) (after_spaces b)).
  assert (Hb : b = spaces b ++ cn ++ s2).
  { unfold s2. rewrite <- Hc2 at 1. by rewrite take_drop, spaces_app_after. }
  intros Hm.
  assert (Hres : q = a ++ spaces b ++ cn ++ spaces s2 /\ post = after_spaces s2
                 /\ (spaces s2 = [] -> s2 = [])).
  { destruct (spaces s2) as [|y w2] eqn:Hw; destruct s2 as [|x s2'] eqn:Hs2;
      try done; injection Hm as <- <-; done. }
  destruct Hres as (-> & -> & Hw2). exists (spaces s2).
  split_and!; try done.
  - by rewrite spaces_app_after.
  - apply spaces_all.
  - intros Hw1. rewrite Hw1 in Hc1. rewrite bool_decide_eq_true_2 in Hc1 by done.
    simpl in Hc1. apply negb_false_iff, bool_decide_eq_true_1 in Hc1. done.
  - intros Hw. rewrite (Hw2 Hw). done.
  - apply after_spaces_head.
Qed.

Lemma match_at_delimits cn a b :
  match_at cn (a, b) <> None ->
  exists a' rest, a ++ b = a' ++ cn ++ rest /\ delimits a' rest.
Proof.
  destruct (match_at cn (a, b)) as [[q post]|] eqn:Hm; [intros _ | done].
  apply match_at_some in Hm as (w2 & Hb & -> & Hw2 & Ha & Hpost & _).
  exists (a ++ spaces b), (w2 ++ post). split.
  - rewrite Hb at 1. by rewrite <- !app_assoc.
  - split.
    + destruct (decide (spaces b = [])) as [Hw | Hw].
      * left. by rewrite Hw, (Ha Hw).
      * right. destruct (spaces_ends_with_space b Hw) as (w & c & -> & Hc).
        exists (a ++ w), c. by rewrite <- app_assoc.
    + destruct w2 as [|y w2]; [left; by rewrite Hpost |].
      right. exists y, (w2 ++ post). split; [done |].
      simpl in Hw2. by destruct (is_space y).
Qed.

Lemma delimits_match_at cn c0 cn' a' rest :
  cn = c0 :: cn' -> is_space c0 = false -> delimits a' rest ->
  exists a b,
    a' ++ cn ++ rest = a ++ b /\ length a <= length a'
    /\ match_at cn (a, b) <> None.
Proof.
  intros Hcn Hc0 [Ha Hrest].
  assert (Htail : match spaces rest, rest with
                  | [], _ :: _ => None
                  | w2, _ => Some w2
                  end <> None).
  { destruct Hrest as [-> | (c & r & -> & Hc)]; [done |]. simpl. by rewrite Hc. }
  assert (Hcore : forall p w1,
             (w1 = [] -> p = []) -> forallb is_space w1 = true ->
             match_at cn (p, w1 ++ cn ++ rest) <> None).
  { intros p w1 Hp Hw1. unfold match_at. cbn [fst snd].
    assert (Hsp : spaces (w1 ++ cn ++ rest) = w1
                  /\ after_spaces (w1 ++ cn ++ rest) = cn ++ rest).
    { clear Hp. induction w1 as [|y w1 IH]; simpl.
      - subst cn. simpl. by rewrite Hc0.
      - simpl in Hw1. destruct (is_space y); [|done].
        destruct (IH Hw1) as [-> ->]. done. }
    destruct Hsp as [-> ->].
    destruct (decide (w1 = [])) as [-> | Hne].
    - rewrite (Hp eq_refl). rewrite (bool_decide_eq_true_2 ([] = [])) by done.
      cbn [andb negb]. rewrite take_app_length, bool_decide_eq_true_2 by done.
      rewrite drop_app_length.
      destruct (spaces rest), rest; try done.
    - rewrite (bool_decide_eq_false_2 _ Hne). cbn [andb].
      rewrite take_app_length, bool_decide_eq_true_2 by done.
      rewrite drop_app_length.
      destruct (spaces rest), rest; try done. }
  destruct Ha as [-> | (a'' & c & -> & Hc)].
  - exists [], (cn ++ rest). split_and!; try done. by apply (Hcore [] []).
  - exists a'', ([c] ++ cn ++ rest). split_and!.
    + by rewrite <- app_assoc.
    + rewrite length_app. lia.
    + apply Hcore; [done |]. simpl. by rewrite Hc.
Qed.

Lemma nospace_starts cn : cn <> [] -> nospace cn -> starts_nospace cn.
Proof.
  intros Hne Hns. destruct cn as [|c0 cn']; [done |].
  exists c0, cn'. split; [done |]. by inversion Hns.
Qed.

(** The pattern's test is whole-token membership. *)
Lemma test_class_regex cn s :
  cn <> [] -> nospace cn ->
  test (class_regex cn) s = true <-> In cn (tokens s).
Proof.
  intros Hne Hns.
  destruct (nospace_starts cn Hne Hns) as (c0 & cn' & Hcn & Hc0).
  rewrite test_true, in_tokens_delimits by done. split.
  - intros (a & b & -> & Hm).
    rewrite (match_here_class_regex cn c0 cn') in Hm by done.
    by apply match_at_delimits.
  - intros (a' & rest & -> & Hd).
    destruct (delimits_match_at cn c0 cn' a' rest Hcn Hc0 Hd)
      as (a & b & Heq & _ & Hm).
    exists a, b. split; [done |].
    by rewrite (match_here_class_regex cn c0 cn').
Qed.

Lemma replace_first_no_match r s : test r s = false -> replace_first r s = s.
Proof.
  unfold test, replace_first. by destruct (exec r s) as [[q [q' rest]]|].
Qed.

(** Removing a class name: the leftmost whole token goes, together with
    all the white space on both its sides; what stands before and behind
    is kept as it is. *)
Lemma replace_class_regex cn s :
  cn <> [] -> nospace cn -> In cn (tokens s) ->
  exists pre w1 w2 post,
    s = pre ++ w1 ++ cn ++ w2 ++ post
    /\ forallb is_space w1 = true /\ forallb is_space w2 = true
    /\ (w1 = [] -> pre = []) /\ (w2 = [] -> post = [])
    /\ spaces post = []
    /\ ~ In cn (tokens pre)
    /\ replace_first (class_regex cn) s = pre ++ post.
Proof.
  intros Hne Hns Hin.
  destruct (nospace_starts cn Hne Hns) as (c0 & cn' & Hcn & Hc0).
  apply (test_class_regex cn s Hne Hns) in Hin.
  unfold test in Hin. unfold replace_first.
  destruct (exec (class_regex cn) s) as [[q [q' post]]|] eqn:Hex; [clear Hin | done].
  apply scan_some in Hex as (a & b & -> & -> & Hm & Hearly). cbn [app] in *.
  rewrite (match_here_class_regex cn c0 cn') in Hm by done.
  apply match_at_some in Hm as (w2 & Hb & -> & Hw2 & Ha & Hpost & Hsp).
  exists a, (spaces b), w2, post. split_and!; try done.
  - by rewrite <- Hb.
  - apply spaces_all.
  - intros Hpre. apply in_tokens_delimits in Hpre as (a' & rest' & -> & Hl & Hr);
      [| done | done].
    assert (Hd : delimits a' (rest' ++ b)).
    { split; [done |]. destruct Hr as [-> | (c & r & -> & Hc)].
      - destruct (spaces_nil_or_starts b) as [Hnil | Hst]; [|by right].
        apply Ha in Hnil. apply app_eq_nil in Hnil as [_ Hnil].
        apply app_eq_nil in Hnil as [Hnil _]. done.
      - right. by exists c, (r ++ b). }
    destruct (delimits_match_at cn c0 cn' a' (rest' ++ b) Hcn Hc0 Hd)
      as (a0 & b0 & Heq & Hlen & Hm0).
    apply Hm0. rewrite <- (match_here_class_regex cn c0 cn') by done.
    apply (Hearly a0 b0).
    + rewrite <- Heq. by rewrite <- !app_assoc.
    + rewrite !length_app. destruct cn; [done |]. simpl. lia.
Qed.

End TokenFacts.

(** ** Facts about [trim] *)

Module TrimFacts.
Import Chars RegExp Style Tokens RegExpFacts TokenFacts.

Lemma rtrim_parsed : compile rtrim_source = Parsed rtrim.
Proof. reflexivity. Qed.

Lemma rtrim_eq :
  rtrim = Alt (Seq Bol (Seq trim_spaces Empty)) (Seq trim_spaces (Seq Eol Empty)).
Proof. reflexivity. Qed.

Lemma nbsp_is_space x : (160 =? x)%N = true -> is_space x = true.
Proof. intros H. apply N.eqb_eq in H. by subst x. Qed.

Lemma head_app {A} (l1 l2 : list A) :
  head (l1 ++ l2) = match head l1 with Some x => Some x | None => head l2 end.
Proof. by destruct l1. Qed.

Lemma head_flat_map_repeat {A B} (f : A -> list B) z k :
  head (flat_map f (z :: repeat z k)) = head (f z).
Proof.
  cbn [flat_map]. rewrite head_app. destruct (head (f z)) eqn:E; [done |].
  assert (Hz : f z = []) by by destruct (f z).
  rewrite flat_map_none; [done |]. apply List.Forall_forall.
  intros y Hy. by apply repeat_spec in Hy as ->.
Qed.

Lemma ends_trim_space (z : pos) :
  ends trim_space z
  = match z.2 with
    | x :: s =>
        (if is_space x then [(z.1 ++ [x], s)] else [])
        ++ (if (160 =? x)%N then [(z.1 ++ [x], s)] else [])
    | [] => []
    end.
Proof.
  unfold trim_space. cbn [ends]. rewrite !flat_map_singleton.
  unfold step1. cbn [xorb in_class]. by destruct z.2.
Qed.

Lemma ends_trim_space_cons p x s :
  is_space x = true ->
  exists k, ends trim_space (p, x :: s) = (p ++ [x], s) :: repeat (p ++ [x], s) k.
Proof.
  intros Hx. rewrite ends_trim_space. cbn [fst snd]. rewrite Hx.
  destruct (160 =? x)%N; [by exists 1%nat | by exists 0%nat].
Qed.

Lemma ends_trim_space_none p x s :
  is_space x = false -> ends trim_space (p, x :: s) = [].
Proof.
  intros Hx. rewrite ends_trim_space. cbn [fst snd]. rewrite Hx.
  destruct (160 =? x)%N eqn:E; [|done].
  apply nbsp_is_space in E. congruence.
Qed.

Lemma ends_trim_space_in z z' :
  In z' (ends trim_space z) ->
  exists x, is_space x = true /\ z'.1 = z.1 ++ [x] /\ z.2 = x :: z'.2.
Proof.
  rewrite ends_trim_space. destruct z as [p [|x s]]; [done |]. cbn [fst snd].
  intros Hin. apply in_app_iff in Hin.
  assert (Hx : is_space x = true /\ z' = (p ++ [x], s)).
  { destruct Hin as [Hin | Hin].
    - destruct (is_space x); [|done]. by destruct Hin as [<- | []].
    - destruct (160 =? x)%N eqn:E; [|done]. apply nbsp_is_space in E.
      by destruct Hin as [<- | []]. }
  destruct Hx as [Hx ->]. by exists x.
Qed.

Lemma star_trim_head s : forall p,
  head (star_loop (ends trim_space) true (length s) (p, s))
  = Some (p ++ spaces s, after_spaces s).
Proof.
  induction s as [|x s IH]; intros p.
  - simpl. by rewrite app_nil_r.
  - cbn [length]. rewrite star_loop_S. cbn [by_priority spaces after_spaces].
    destruct (is_space x) eqn:E.
    + destruct (ends_trim_space_cons p x s E) as [k ->].
      rewrite head_app, head_flat_map_repeat, progress_cons, IH.
      by rewrite <- app_assoc.
    + rewrite ends_trim_space_none by done. simpl. by rewrite app_nil_r.
Qed.

Lemma star_trim_in n : forall z z',
  In z' (star_loop (ends trim_space) true n z) ->
  exists a, forallb is_space a = true /\ z'.1 = z.1 ++ a /\ z.2 = a ++ z'.2.
Proof.
  induction n as [|n IH]; intros z z'.
  - intros [<- | []]. exists []. by rewrite app_nil_r.
  - rewrite star_loop_S. cbn [by_priority]. intros Hin.
    apply in_app_iff in Hin as [Hin | [<- | []]].
    + apply in_flat_map in Hin as (z1 & Hz1 & Hin).
      destruct (progress z z1); [|done].
      apply ends_trim_space_in in Hz1 as (x & Hx & H1 & H2).
      apply IH in Hin as (a & Ha & H3 & H4).
      exists (x :: a). split_and!.
      * simpl. by rewrite Hx.
      * rewrite H3, H1. by rewrite <- app_assoc.
      * rewrite H2, H4. done.
    + exists []. by rewrite app_nil_r.
Qed.

Lemma trim_spaces_head p s :
  head (ends trim_spaces (p, s))
  = if bool_decide (spaces s = []) then None
    else Some (p ++ spaces s, after_spaces s).
Proof.
  unfold trim_spaces. cbn [ends]. destruct s as [|x s].
  - by rewrite ends_trim_space.
  - cbn [spaces after_spaces]. destruct (is_space x) eqn:E.
    + destruct (ends_trim_space_cons p x s E) as [k ->].
      rewrite head_flat_map_repeat. cbn [snd]. rewrite star_trim_head.
      rewrite bool_decide_eq_false_2 by done. by rewrite <- app_assoc.
    + by rewrite ends_trim_space_none.
Qed.

Lemma trim_spaces_in p s z' :
  In z' (ends trim_spaces (p, s)) ->
  exists a, a <> [] /\ forallb is_space a = true /\ z'.1 = p ++ a /\ s = a ++ z'.2.
Proof.
  unfold trim_spaces. cbn [ends]. intros Hin.
  apply in_flat_map in Hin as (z1 & Hz1 & Hin).
  apply ends_trim_space_in in Hz1 as (x & Hx & H1 & H2).
  apply star_trim_in in Hin as (a & Ha & H3 & H4).
  cbn [fst snd] in *. exists (x :: a). split_and!; [done | | |].
  - simpl. by rewrite Hx.
  - rewrite H3, H1. by rewrite <- app_assoc.
  - rewrite H2, H4. done.
Qed.

Lemma head_none_nil {A} (l : list A) : head l = None -> l = [].
Proof. by destruct l. Qed.

Lemma ends_eol (z : pos) :
  ends (Seq Eol Empty) z = if at_end z then [z] else [].
Proof. rewrite ends_seq_empty. done. Qed.

Lemma spaces_all_space s :
  forallb is_space s = true -> spaces s = s /\ after_spaces s = [].
Proof.
  induction s as [|x s IH]; simpl; [done |].
  destruct (is_space x); [|done]. intros H. by destruct (IH H) as [-> ->].
Qed.

Lemma ends_alt r1 r2 z : ends (Alt r1 r2) z = ends r1 z ++ ends r2 z.
Proof. reflexivity. Qed.

Lemma ends_seq r1 r2 z : ends (Seq r1 r2) z = flat_map (ends r2) (ends r1 z).
Proof. reflexivity. Qed.

Lemma ends_bol z : ends Bol z = if at_start z then [z] else [].
Proof. reflexivity. Qed.

Lemma rtrim_at_start s :
  match_here rtrim ([], s)
  = if bool_decide (spaces s = []) then None
    else Some (spaces s, after_spaces s).
Proof.
  rewrite rtrim_eq. unfold match_here. cbn [ends at_start fst flat_map].
  rewrite app_nil_r, flat_map_singleton, head_app, trim_spaces_head.
  cbn [app]. destruct (bool_decide (spaces s = [])) eqn:E; [|done].
  pose proof (trim_spaces_head [] s) as H. rewrite E in H.
  apply head_none_nil in H. by rewrite H.
Qed.

Lemma rtrim_inside p s :
  p <> [] ->
  match_here rtrim (p, s)
  = if forallb is_space s && negb (bool_decide (s = []))
    then Some (p ++ s, []) else None.
Proof.
  intros Hp. rewrite rtrim_eq. unfold match_here.
  rewrite ends_alt, (ends_seq Bol), (ends_seq trim_spaces), ends_bol.
  replace (at_start (p, s)) with false by by destruct p.
  cbn [flat_map app].
  destruct (forallb is_space s && negb (bool_decide (s = []))) eqn:E.
  - apply andb_true_iff in E as [Hall Hne].
    apply negb_true_iff, bool_decide_eq_false_1 in Hne.
    destruct (spaces_all_space s Hall) as [Hsp Haf].
    pose proof (trim_spaces_head p s) as H.
    rewrite Hsp, Haf, bool_decide_eq_false_2 in H by done.
    destruct (ends trim_spaces (p, s)) as [|z l]; [done |].
    injection H as ->. cbn [flat_map]. by rewrite ends_eol.
  - rewrite flat_map_none; [done |]. apply List.Forall_forall.
    intros z' Hin. rewrite ends_eol.
    apply trim_spaces_in in Hin as (a & Hne & Hall & _ & Hs).
    unfold at_end. destruct z'.2; [|done].
    rewrite app_nil_r in Hs. subst a.
    rewrite Hall, bool_decide_eq_false_2 in E by done. done.
Qed.

Lemma replace_all_skip r a : forall p b,
  replace_all_from r p (a ++ b) (length a) = replace_all_from r (p ++ a) b 0.
Proof.
  induction a as [|x a IH]; intros p b.
  - by rewrite app_nil_r.
  - cbn [app length replace_all_from]. rewrite IH. by rewrite <- app_assoc.
Qed.

Lemma trim_inside s : forall p,
  p <> [] -> replace_all_from rtrim p s 0 = rstrip s.
Proof.
  induction s as [|x s IH]; intros p Hp; [done |].
  cbn [replace_all_from]. rewrite rtrim_inside by done.
  cbn [rstrip]. destruct (forallb is_space (x :: s)) eqn:E.
  - rewrite bool_decide_eq_false_2 by done. cbn [andb negb fst].
    rewrite length_app. cbn [length].
    replace (length p + S (length s) - length p)%nat with (S (length s)) by lia.
    rewrite <- (app_nil_r s) at 1. by rewrite replace_all_skip.
  - cbn [andb]. rewrite IH; [done |]. by destruct p.
Qed.

(** [trim] strips the white space at both ends of its argument. *)
Lemma trim_strip s : trim s = strip s.
Proof.
  unfold trim, replace_all, strip. destruct s as [|x s]; [done |].
  cbn [replace_all_from]. rewrite rtrim_at_start.
  cbn [spaces after_spaces]. destruct (is_space x) eqn:E.
  - rewrite bool_decide_eq_false_2 by done. cbn [fst length].
    rewrite Nat.sub_0_r.
    rewrite <- (spaces_app_after s) at 1. rewrite replace_all_skip.
    apply trim_inside. done.
  - rewrite bool_decide_eq_true_2 by done. rewrite trim_inside by done.
    cbn [rstrip forallb]. by rewrite E.
Qed.

(** *** The tokens of a trimmed string *)

Lemma tokens_cons_space c s : is_space c = true -> tokens (c :: s) = tokens s.
Proof. intros Hc. unfold tokens. simpl. by rewrite Hc. Qed.

Lemma tokens_after_spaces s : tokens (after_spaces s) = tokens s.
Proof.
  induction s as [|c s IH]; [done |]. cbn [after_spaces].
  destruct (is_space c) eqn:E; [|done]. by rewrite IH, tokens_cons_space.
Qed.

Lemma fields_all_space s :
  forallb is_space s = true -> fields s = repeat [] (S (length s)).
Proof.
  induction s as [|c s IH]; [done |]. simpl.
  destruct (is_space c); [|done]. intros H. by rewrite (IH H).
Qed.

Lemma fields_rstrip s : exists k, fields s = fields (rstrip s) ++ repeat [] k.
Proof.
  induction s as [|c s [k IH]]; [by exists 0%nat |].
  cbn [rstrip]. destruct (forallb is_space (c :: s)) eqn:E.
  - exists (S (length s)). by rewrite fields_all_space.
  - exists k. cbn [fields]. rewrite IH. destruct (is_space c); [done |].
    pose proof (fields_ne (rstrip s)). by destruct (fields (rstrip s)).
Qed.

Lemma tokens_rstrip s : tokens (rstrip s) = tokens s.
Proof.
  destruct (fields_rstrip s) as [k Hk]. unfold tokens.
  rewrite Hk, List.filter_app.
  assert (Hrep : List.filter (fun f : jsstring => negb (bool_decide (f = [])))
                             (repeat [] k) = []).
  { clear Hk. induction k as [|k IH]; [done |]. simpl. by rewrite IH. }
  by rewrite Hrep, app_nil_r.
Qed.

Lemma tokens_trim s : tokens (trim s) = tokens s.
Proof.
  rewrite trim_strip. unfold strip. by rewrite tokens_rstrip, tokens_after_spaces.
Qed.

Lemma tokens_app_space a c b :
  is_space c = true -> tokens (a ++ c :: b) = tokens a ++ tokens b.
Proof.
  intros Hc. unfold tokens. by rewrite fields_app_space, List.filter_app.
Qed.

Lemma tokens_nospace cn : cn <> [] -> nospace cn -> tokens cn = [cn].
Proof.
  intros Hne Hns. unfold tokens. rewrite fields_nospace by done. simpl.
  by rewrite bool_decide_eq_false_2.
Qed.

(** The string [addClass] stores has the old tokens and the new one. *)
Lemma tokens_add s cn :
  cn <> [] -> nospace cn ->
  tokens (trim (s ++ js " " ++ cn)) = tokens s ++ [cn].
Proof.
  intros Hne Hns. rewrite tokens_trim.
  change (js " " ++ cn) with (32%N :: cn).
  rewrite tokens_app_space by reflexivity. by rewrite (tokens_nospace cn).
Qed.

End TrimFacts.

(** ** The pattern cache *)

Module CacheFacts.
Import Chars RegExp Style Tokens RegExpFacts.
Local Open Scope js_scope.

Lemma cache_le_refl w : cache_le w w.
Proof. by split_and!. Qed.

Lemma cache_le_trans w1 w2 w3 : cache_le w1 w2 -> cache_le w2 w3 -> cache_le w1 w3.
Proof.
  intros (Ha & Hb & Hc) (Ha' & Hb' & Hc'). split_and!.
  - by etrans.
  - intros k Hk Hnone. apply Hb'; [done |]. by apply Hb.
  - auto.
Qed.

Lemma cache_le_same w w' :
  reClassNameCache w' = reClassNameCache w -> compiled w' = compiled w ->
  cache_le w w'.
Proof.
  intros Hc Hn. unfold cache_le, cache_ok. rewrite Hc, Hn. by split_and!.
Qed.

Lemma preserves_ret {A} (a : A) : preserves (ret a).
Proof. intros w. apply cache_le_refl. Qed.

Lemma preserves_throw {A} e : preserves (@throw A e).
Proof. intros w. apply cache_le_refl. Qed.


Lemma cache_get_none w k :
  cache_get w k = None -> reClassNameCache w !! k = None /\ inherited k = false.
Proof.
  unfold cache_get. destruct (reClassNameCache w !! k); [done |].
  by destruct (inherited k).
Qed.

Lemma preserves_getClassRegEx cn : preserves (getClassRegEx cn).
Proof.
  intros w. unfold getClassRegEx.
  destruct (cache_get w cn) as [v|] eqn:Hget; [apply cache_le_refl |].
  apply cache_get_none in Hget as [Hnone Hinh].
  destruct (compile (pattern_of cn)) as [r | |] eqn:Hcomp;
    [| apply cache_le_refl | done].
  cbn [left_by]. unfold cache_le, cache_ok. cbn [reClassNameCache compiled].
  split_and!.
  - by apply insert_subseteq.
  - intros k Hk Hk'. rewrite lookup_insert_ne; [done |]. congruence.
  - intros [Hvalid Hsize]. split.
    + intros k re Hlook. destruct (decide (k = cn)) as [-> | Hne].
      * rewrite lookup_insert_eq in Hlook. injection Hlook as <-. done.
      * rewrite lookup_insert_ne in Hlook by done. by apply Hvalid.
    + rewrite map_size_insert_None by done. by rewrite Hsize.
Qed.

Lemma preserves_get_className el : preserves (get_className el).
Proof. intros w. apply cache_le_refl. Qed.

Lemma preserves_set_className el s : preserves (set_className el s).
Proof. intros w. by apply cache_le_same. Qed.

Lemma preserves_set_style el p v : preserves (set_style el p v).
Proof. intros w. by apply cache_le_same. Qed.

Lemma preserves_gs el p : preserves (gs el p).
Proof. intros w. apply cache_le_refl. Qed.

Lemma preserves_invoke cb v : preserves (invoke cb v).
Proof.
  intros w. unfold invoke. destruct cb as [f|]; [|apply cache_le_refl].
  destruct (f v (heap w)) as [h [e|]]; by apply cache_le_same.
Qed.

Lemma preserves_re_test re s : preserves (re_test re s).
Proof. destruct re; [apply preserves_ret | apply preserves_throw]. Qed.

Lemma preserves_re_replace re s : preserves (re_replace re s).
Proof. destruct re; [apply preserves_ret | intros w; apply cache_le_refl]. Qed.




Create HintDb preserves.
#[local] Hint Resolve preserves_ret preserves_throw
  preserves_getClassRegEx preserves_get_className preserves_set_className
  preserves_set_style preserves_gs preserves_invoke preserves_re_test
  preserves_re_replace : preserves.






Lemma fresh_cache_ok h pf : cache_ok (fresh h pf).
Proof. split; [by intros k re Hk | done]. Qed.


Lemma getClassRegEx_cached cn w v :
  cache_get w cn = Some v -> getClassRegEx cn w = Ok v w.
Proof. intros H. unfold getClassRegEx. by rewrite H. Qed.


Lemma getClassRegEx_ok_cached cn w v w1 :
  getClassRegEx cn w = Ok v w1 -> cache_get w1 cn = Some v.
Proof.
  unfold getClassRegEx. destruct (cache_get w cn) as [v'|] eqn:Hget.
  - by intros [= <- <-].
  - destruct (compile (pattern_of cn)) as [r | |]; [|done..].
    intros [= <- <-]. unfold cache_get. cbn [reClassNameCache].
    by rewrite lookup_insert_eq.
Qed.

End CacheFacts.

(** ** The methods, element by element *)

Module StyleFacts.
Import Chars RegExp Style Tokens Effects RegExpFacts TokenFacts TrimFacts CacheFacts.
Local Open Scope js_scope.

Lemma same_but_heap_refl w : same_but_heap w w.
Proof. by split_and!. Qed.

Lemma same_but_heap_trans w1 w2 w3 :
  same_but_heap w1 w2 -> same_but_heap w2 w3 -> same_but_heap w1 w3.
Proof.
  intros (A1 & A2 & A3 & A4) (B1 & B2 & B3 & B4).
  unfold same_but_heap. rewrite B1, B2, B3, B4. by split_and!.
Qed.

Lemma visits_cons l el this :
  visits l (el :: this) = if decide (l = el) then S (visits l this) else visits l this.
Proof.
  unfold visits. cbn [count_occ].
  destruct (Nat.eq_dec el l) as [-> | Hne].
  - by rewrite decide_True.
  - by rewrite decide_False by congruence.
Qed.

Lemma visits_zero l this : visits l this = 0%nat <-> l ∉ this.
Proof.
  unfold visits. rewrite list_elem_of_In. symmetry. apply count_occ_not_In.
Qed.

Lemma iter_idempotent {A} (g : A -> A) n e :
  (forall x, g (g x) = g x) ->
  Nat.iter n g e = match n with O => e | S _ => g e end.
Proof.
  intros Hg. induction n as [|n IH]; [done |]. rewrite Nat.iter_succ, IH.
  by destruct n.
Qed.

Lemma iter_visits_idempotent (g : element -> element) l this e :
  (forall x, g (g x) = g x) ->
  Nat.iter (visits l this) g e = if decide (l ∈ this) then g e else e.
Proof.
  intros Hg. rewrite iter_idempotent by done.
  destruct (visits l this) eqn:E.
  - apply visits_zero in E. by rewrite decide_False.
  - rewrite decide_True; [done |].
    destruct (decide (l ∈ this)) as [|Hn]; [done |].
    apply visits_zero in Hn. lia.
Qed.

(** [each] with a function that rewrites the visited element. *)
Lemma each_from_pointwise (Inv : world -> Prop) (Fr : world -> world -> Prop)
      (g : element -> element) (fn : nat -> M unit) :
  (forall w, Fr w w) ->
  (forall w1 w2 w3, Fr w1 w2 -> Fr w2 w3 -> Fr w1 w3) ->
  (forall el w, Inv w ->
     exists w', fn el w = Ok tt w' /\ Inv w' /\ Fr w w'
                /\ forall l, heap w' l = if decide (l = el) then g (heap w l)
                                         else heap w l) ->
  forall this w, Inv w ->
    exists w', each_from fn this w = Ok tt w' /\ Inv w' /\ Fr w w'
               /\ forall l, heap w' l = Nat.iter (visits l this) g (heap w l).
Proof.
  intros Hrefl Htrans Hfn. induction this as [|el this IH]; intros w Hinv.
  - exists w. by split_and!.
  - destruct (Hfn el w Hinv) as (w1 & Hstep & Hinv1 & Hfr1 & Hheap1).
    destruct (IH w1 Hinv1) as (w' & Hrest & Hinv' & Hfr' & Hheap').
    exists w'. cbn [each_from]. unfold bind. rewrite Hstep.
    split_and!; [done | done | by eapply Htrans |].
    intros l. rewrite Hheap', Hheap1, visits_cons.
    destruct (decide (l = el)); [|done]. by rewrite Nat.iter_succ_r.
Qed.

Lemma bind_ok {A B} (m : M A) (f : A -> M B) w a w1 :
  m w = Ok a w1 -> bind m f w = f a w1.
Proof. intros H. unfold bind. by rewrite H. Qed.

Lemma left_by_bind_ret {A B} (m : M A) (f : A -> B) w :
  left_by (bind m (fun a => ret (f a)) w) = left_by (m w).
Proof. unfold bind. by destruct (m w). Qed.

Lemma each_ok fn this w w' :
  each_from fn (elems this) w = Ok tt w' -> each fn this w = Ok this w'.
Proof. intros H. unfold each, bind. by rewrite H. Qed.


(** *** What assignments store *)

Lemma declare_lookup d m k :
  declare d m !! k = if decide (d.1 = k) then d.2 else m !! k.
Proof.
  unfold declare. destruct d as [k0 [v|]]; cbn [fst snd].
  - destruct (decide (k0 = k)) as [-> | Hne].
    + by rewrite lookup_insert_eq.
    + by rewrite lookup_insert_ne.
  - destruct (decide (k0 = k)) as [-> | Hne].
    + by rewrite lookup_delete_eq.
    + by rewrite lookup_delete_ne.
Qed.

(** The last declaration for a key decides. *)
Lemma last_write_from (ds : list (jsstring * option jsstring)) k : forall r,
  fold_left (fun r d => if decide (d.1 = k) then Some d.2 else r) ds r
  = match fold_left (fun r d => if decide (d.1 = k) then Some d.2 else r) ds None with
    | Some v => Some v
    | None => r
    end.
Proof.
  induction ds as [|d ds IH]; intros r; [done |].
  cbn [fold_left]. rewrite (IH (if decide (d.1 = k) then _ else r)).
  rewrite (IH (if decide (d.1 = k) then _ else None)).
  destruct (fold_left _ ds None); [done |]. by destruct (decide (d.1 = k)).
Qed.

Lemma fold_declare_lookup ds k : forall m,
  fold_left (fun m d => declare d m) ds m !! k
  = match fold_left (fun r d => if decide (d.1 = k) then Some d.2 else r) ds None with
    | Some v => v
    | None => m !! k
    end.
Proof.
  induction ds as [|d ds IH]; intros m; [done |].
  cbn [fold_left]. rewrite IH, (last_write_from ds k (if decide (d.1 = k) then _ else _)).
  destruct (fold_left _ ds None); [done |].
  rewrite declare_lookup. by destruct (decide (d.1 = k)).
Qed.

Lemma assign_style_lookup a m k :
  assign_style a m !! k = match written a k with Some v => v | None => m !! k end.
Proof.
  unfold assign_style, written.
  rewrite fold_declare_lookup, (last_write_from _ k (if replaces a then _ else _)).
  destruct (fold_left _ (declarations a) None); [done |].
  by destruct (replaces a).
Qed.

Lemma written_single p v k :
  written (Assignment false [(p, v)]) k = if decide (p = k) then Some v else None.
Proof. done. Qed.

Lemma written_by_from pf o k : forall r,
  fold_left (fun r kv => match written (assigned pf kv.1 kv.2) k with
                         | Some v => Some v
                         | None => r
                         end) o r
  = match written_by pf o k with Some v => Some v | None => r end.
Proof.
  unfold written_by. induction o as [|kv o IH]; intros r; [done |].
  cbn [fold_left]. rewrite (IH (match written _ k with Some v => _ | None => r end)).
  rewrite (IH (match written _ k with Some v => _ | None => None end)).
  destruct (fold_left _ o None); [done |]. by destruct (written _ k).
Qed.

Lemma written_by_cons pf p v o k :
  written_by pf ((p, v) :: o) k
  = match written_by pf o k with
    | Some x => Some x
    | None => written (assigned pf p v) k
    end.
Proof.
  unfold written_by at 1. cbn [fold_left fst snd]. rewrite written_by_from.
  destruct (written_by pf o k); [done |]. by destruct (written _ k).
Qed.

Lemma assign_lookup pf o k : forall m,
  assign pf o m !! k = match written_by pf o k with Some v => v | None => m !! k end.
Proof.
  induction o as [|[p v] o IH]; intros m; [done |].
  change (assign pf ((p, v) :: o) m) with (assign pf o (assign_style (assigned pf p v) m)).
  rewrite IH, written_by_cons. destruct (written_by pf o k); [done |].
  apply assign_style_lookup.
Qed.

Lemma assign_style_idem a m : assign_style a (assign_style a m) = assign_style a m.
Proof.
  apply map_eq. intros k. rewrite !assign_style_lookup. by destruct (written a k).
Qed.

Lemma assign_idem pf o m : assign pf o (assign pf o m) = assign pf o m.
Proof.
  apply map_eq. intros k. rewrite !assign_lookup. by destruct (written_by pf o k).
Qed.

(** *** setStyle and css *)

Lemma with_style_idem a e : with_style a (with_style a e) = with_style a e.
Proof. unfold with_style. cbn [className style]. by rewrite assign_style_idem. Qed.

Lemma setStyle_spec p v this w :
  exists w', setStyle p v this w = Ok (RColl this) w' /\ same_but_heap w w'
             /\ forall l, heap w' l = if decide (l ∈ elems this)
                                      then with_style (assigned (host w) p v) (heap w l)
                                      else heap w l.
Proof.
  destruct (each_from_pointwise (fun w0 => host w0 = host w) same_but_heap
              (with_style (assigned (host w) p v))
              (setStyle_fn p v) same_but_heap_refl same_but_heap_trans)
    with (this := elems this) (w := w) as (w' & Heach & _ & Hfr & Hheap); [|done|].
  { intros el w0 Hhost. eexists. split; [reflexivity |].
    split_and!; try done. intros l. cbn [set_heap heap]. unfold update.
    rewrite Hhost. destruct (decide (l = el)) as [-> | Hne]; done. }
  exists w'. unfold setStyle, bind. rewrite (each_ok _ _ _ _ Heach).
  split_and!; try done. intros l. rewrite Hheap.
  apply iter_visits_idempotent, with_style_idem.
Qed.

Lemma with_styles_assign pf o : forall e,
  with_styles pf o e = Element (className e) (assign pf o (style e)).
Proof.
  unfold with_styles, assign. induction o as [|[k v] o IH]; intros e.
  - by destruct e.
  - cbn [fold_left]. by rewrite IH.
Qed.

Lemma with_styles_idem pf o e :
  with_styles pf o (with_styles pf o e) = with_styles pf o e.
Proof.
  rewrite !with_styles_assign. cbn [className style]. by rewrite assign_idem.
Qed.

Lemma for_in_setStyle_spec o this : forall w,
  exists w', for_in o (fun prop val => do _ <- setStyle prop val this ; ret tt) w
             = Ok tt w'
             /\ same_but_heap w w'
             /\ forall l, heap w' l = if decide (l ∈ elems this)
                                      then with_styles (host w) o (heap w l)
                                      else heap w l.
Proof.
  induction o as [|[k v] o IH]; intros w.
  - exists w. split_and!; [done | apply same_but_heap_refl |].
    intros l. by destruct (decide (l ∈ elems this)).
  - destruct (setStyle_spec k v this w) as (w1 & Hset & Hfr1 & Hheap1).
    destruct (IH w1) as (w' & Hrest & Hfr' & Hheap').
    exists w'. cbn [for_in]. unfold bind at 1 2. rewrite Hset. cbn [ret].
    split_and!; [done | by eapply same_but_heap_trans |].
    intros l. rewrite Hheap', Hheap1. destruct Hfr1 as (_ & _ & _ & ->).
    by destruct (decide (l ∈ elems this)).
Qed.

Lemma css_loop o this : forall visited w,
  exists w', each_from (css_fn o this) visited w = Ok tt w'
             /\ same_but_heap w w'
             /\ forall l, heap w' l
                          = if decide (l ∈ elems this)
                            then Nat.iter (length visited) (with_styles (host w) o)
                                          (heap w l)
                            else heap w l.
Proof.
  induction visited as [|el visited IH]; intros w.
  - exists w. split_and!; [done | apply same_but_heap_refl |].
    intros l. by destruct (decide (l ∈ elems this)).
  - destruct (for_in_setStyle_spec o this w) as (w1 & Hstep & Hfr1 & Hheap1).
    destruct (IH w1) as (w' & Hrest & Hfr' & Hheap').
    exists w'. cbn [each_from]. unfold bind, css_fn at 1. rewrite Hstep.
    split_and!; [done | by eapply same_but_heap_trans |].
    intros l. rewrite Hheap', Hheap1. cbn [length]. destruct Hfr1 as (_ & _ & _ & ->).
    destruct (decide (l ∈ elems this)); [|done]. by rewrite Nat.iter_succ_r.
Qed.

Lemma css_spec o this w :
  exists w', css o this w = Ok (RColl this) w' /\ same_but_heap w w'
             /\ forall l, heap w' l = if decide (l ∈ elems this)
                                      then with_styles (host w) o (heap w l)
                                      else heap w l.
Proof.
  destruct (css_loop o this (elems this) w) as (w' & Heach & Hfr & Hheap).
  exists w'. unfold css, bind. rewrite (each_ok _ _ _ _ Heach).
  split_and!; try done. intros l. rewrite Hheap.
  destruct (decide (l ∈ elems this)) as [Hin | Hnotin]; [|done].
  rewrite iter_idempotent by apply with_styles_idem.
  destruct (elems this); [by apply elem_of_nil in Hin | done].
Qed.

(** *** Plain class names *)

Lemma plain_spec cn :
  plain cn = true ->
  cn <> [] /\ nospace cn /\ literal cn /\ inherited cn = false.
Proof.
  unfold plain. intros H.
  apply andb_true_iff in H as [H Hinh]. apply andb_true_iff in H as [Hne Hall].
  apply negb_true_iff in Hinh. apply negb_true_iff, bool_decide_eq_false_1 in Hne.
  rewrite forallb_forall in Hall.
  split_and!; try done.
  - apply List.Forall_forall. intros c Hc. apply Hall in Hc.
    unfold plain_char in Hc. destruct (kind c); try done.
    by apply negb_true_iff in Hc.
  - apply List.Forall_forall. intros c Hc. apply Hall in Hc.
    unfold plain_char in Hc. by destruct (kind c).
Qed.

Lemma getClassRegEx_frame cn w v w' :
  getClassRegEx cn w = Ok v w' -> same_but_cache w w'.
Proof.
  intros H. pose proof (preserves_getClassRegEx cn w) as Hle.
  rewrite H in Hle. cbn [left_by] in Hle. revert H. unfold getClassRegEx.
  destruct (cache_get w cn); [by intros [= _ <-] |].
  destruct (compile (pattern_of cn)); [|done..]. by intros [= _ <-].
Qed.

Lemma getClassRegEx_plain cn w :
  cache_ok w -> plain cn = true ->
  exists re w', getClassRegEx cn w = Ok (Own re) w'
                /\ re_ast re = class_regex cn
                /\ same_but_cache w w' /\ cache_ok w'.
Proof.
  intros Hok Hplain. destruct (plain_spec cn Hplain) as (Hne & Hns & Hlit & Hinh).
  pose proof (compile_class_pattern cn Hne Hlit) as Hcomp.
  assert (Hres : exists re w', getClassRegEx cn w = Ok (Own re) w'
                               /\ re_ast re = class_regex cn).
  { unfold getClassRegEx, cache_get. rewrite Hinh, Hcomp.
    destruct (reClassNameCache w !! cn) as [re|] eqn:Hlook.
    - exists re, w. split; [done |]. destruct Hok as [Hvalid _].
      destruct (Hvalid cn re Hlook) as [Hre _]. congruence.
    - by eexists _, _. }
  destruct Hres as (re & w' & Hget & Hast). exists re, w'.
  pose proof (getClassRegEx_frame cn w _ w' Hget) as Hfr.
  split_and!; try done. destruct Hfr as (_ & _ & _ & _ & _ & Hk). auto.
Qed.

Lemma hasClass_helper_plain el cn w :
  cache_ok w -> plain cn = true ->
  exists w', hasClass_helper el cn w
             = Ok (test (class_regex cn) (className (heap w el))) w'
             /\ same_but_cache w w' /\ cache_ok w'.
Proof.
  intros Hok Hplain.
  destruct (getClassRegEx_plain cn w Hok Hplain) as (re & w' & Hget & Hast & Hfr & Hok').
  exists w'. unfold hasClass_helper, bind. rewrite Hget.
  unfold get_className, re_test, ret. pose proof Hfr as (Hheap & _).
  rewrite Hheap, Hast. by split_and!.
Qed.

(** *** addClass *)

Lemma with_class_test cn e :
  cn <> [] -> nospace cn ->
  test (class_regex cn) (className (with_class cn e)) = true.
Proof.
  intros Hne Hns. unfold with_class.
  destruct (test (class_regex cn) (className e)) eqn:E; [done |].
  cbn [className]. apply test_class_regex; [done..|].
  rewrite tokens_add by done. apply in_app_iff. right. by left.
Qed.

Lemma with_class_idem cn e :
  cn <> [] -> nospace cn -> with_class cn (with_class cn e) = with_class cn e.
Proof.
  intros Hne Hns. unfold with_class at 1. by rewrite with_class_test.
Qed.

Lemma addClass_frame_refl w : addClass_frame w w.
Proof. by split_and!. Qed.

Lemma addClass_frame_trans w1 w2 w3 :
  addClass_frame w1 w2 -> addClass_frame w2 w3 -> addClass_frame w1 w3.
Proof.
  intros (A1 & A2 & A3) (B1 & B2 & B3). unfold addClass_frame.
  rewrite B1, B2. split_and!; try done. by eapply cache_le_trans.
Qed.

Lemma addClass_fn_spec cn el w :
  plain cn = true -> cache_ok w ->
  exists w', addClass_fn cn el w = Ok tt w' /\ cache_ok w' /\ addClass_frame w w'
             /\ forall l, heap w' l = if decide (l = el) then with_class cn (heap w l)
                                      else heap w l.
Proof.
  intros Hplain Hok.
  destruct (hasClass_helper_plain el cn w Hok Hplain)
    as (w1 & Hhas & (Hheap & Hcalls & Hcas & Hle) & Hok1).
  unfold addClass_fn, bind. rewrite Hhas. unfold with_class.
  destruct (test (class_regex cn) (className (heap w el))) eqn:E.
  - exists w1. split_and!; try done. intros l. rewrite Hheap.
    destruct (decide (l = el)) as [-> | Hne]; [by rewrite E | done].
  - eexists. unfold get_className, set_className. split; [reflexivity |].
    split_and!; [done | |].
    + by split_and!.
    + intros l. cbn [set_heap heap]. unfold update. rewrite Hheap.
      destruct (decide (l = el)) as [-> | Hne]; [|done].
      by rewrite E.
Qed.

Lemma addClass_spec cn this w :
  plain cn = true -> cache_ok w ->
  exists w', addClass cn this w = Ok (RColl this) w' /\ cache_ok w'
             /\ addClass_frame w w'
             /\ forall l, heap w' l = if decide (l ∈ elems this)
                                      then with_class cn (heap w l)
                                      else heap w l.
Proof.
  intros Hplain Hok. destruct (plain_spec cn Hplain) as (Hne & Hns & _).
  destruct (each_from_pointwise cache_ok addClass_frame (with_class cn)
              (addClass_fn cn) addClass_frame_refl addClass_frame_trans)
    with (this := elems this) (w := w) as (w' & Heach & Hok' & Hfr & Hheap); [|done|].
  { intros el w0 Hok0. by apply addClass_fn_spec. }
  exists w'. unfold addClass, bind. rewrite (each_ok _ _ _ _ Heach).
  split_and!; try done. intros l. rewrite Hheap.
  apply iter_visits_idempotent. intros x. by apply with_class_idem.
Qed.

(** *** removeClass *)

Lemma without_classes_idem e : without_classes (without_classes e) = without_classes e.
Proof. done. Qed.

Lemma removeClass_none_spec this w :
  exists w', removeClass None this w = Ok (RColl this) w' /\ same_but_heap w w'
             /\ forall l, heap w' l = if decide (l ∈ elems this)
                                      then without_classes (heap w l)
                                      else heap w l.
Proof.
  destruct (each_from_pointwise (fun _ => True) same_but_heap without_classes
              removeClass_all_fn same_but_heap_refl same_but_heap_trans)
    with (this := elems this) (w := w) as (w' & Heach & _ & Hfr & Hheap); [|done|].
  { intros el w0 _. eexists. split; [reflexivity |].
    split_and!; try done. intros l. cbn [set_heap heap]. unfold update.
    destruct (decide (l = el)) as [-> | Hne]; done. }
  exists w'. unfold removeClass, bind. rewrite (each_ok _ _ _ _ Heach).
  split_and!; try done. intros l. rewrite Hheap.
  apply iter_visits_idempotent, without_classes_idem.
Qed.

Lemma removeClass_fn_each_any re (this : list nat) w :
  exists w', each_from (removeClass_fn re) this w = Ok tt w'
             /\ same_but_heap w w'
             /\ forall l, heap w' l
                          = Nat.iter (visits l this) (without_match (host w) re)
                                     (heap w l).
Proof.
  destruct (each_from_pointwise (fun w0 => host w0 = host w) same_but_heap
              (without_match (host w) re)
              (removeClass_fn re) same_but_heap_refl same_but_heap_trans)
    with (this := this) (w := w) as (w' & Heach & _ & Hfr & Hheap); [|done|].
  { intros el w0 Hhost. destruct re as [re | name]; (eexists; split; [reflexivity |]);
      (split_and!; try done); intros l; cbn [set_heap heap]; unfold update;
      rewrite <- ?Hhost; destruct (decide (l = el)) as [-> | Hne]; done. }
  by exists w'.
Qed.

Lemma removeClass_fn_each re (this : list nat) w :
  exists w', each_from (removeClass_fn (Own re)) this w = Ok tt w'
             /\ same_but_heap w w'
             /\ forall l, heap w' l
                          = Nat.iter (visits l this) (without_class (re_ast re))
                                     (heap w l).
Proof.
  destruct (each_from_pointwise (fun _ => True) same_but_heap
              (without_class (re_ast re))
              (removeClass_fn (Own re)) same_but_heap_refl same_but_heap_trans)
    with (this := this) (w := w) as (w' & Heach & _ & Hfr & Hheap); [|done|].
  { intros el w0 _. eexists. split; [reflexivity |].
    split_and!; try done. intros l. cbn [set_heap heap]. unfold update.
    destruct (decide (l = el)) as [-> | Hne]; done. }
  by exists w'.
Qed.

Lemma className_iter_without_class r n : forall e,
  className (Nat.iter n (without_class r) e)
  = Nat.iter n (replace_first r) (className e).
Proof.
  induction n as [|n IH]; intros e; [done |].
  rewrite !Nat.iter_succ. cbn [without_class className]. by rewrite IH.
Qed.

Lemma removeClass_plain_spec cn this w :
  cache_ok w -> plain cn = true ->
  exists w', removeClass (Some cn) this w = Ok (RColl this) w' /\ cache_ok w'
             /\ calls w' = calls w /\ host w' = host w
             /\ forall l, heap w' l
                          = Nat.iter (visits l (elems this)) (without_class (class_regex cn))
                                     (heap w l).
Proof.
  intros Hok Hplain.
  destruct (getClassRegEx_plain cn w Hok Hplain)
    as (re & w0 & Hget & Hast & (Hheap0 & Hcalls0 & Hcas0 & _) & Hok0).
  destruct (removeClass_fn_each re (elems this) w0)
    as (w' & Heach & (Hc & Hn & Hcalls & Hcas) & Hheap).
  exists w'. unfold removeClass, bind. rewrite Hget, (each_ok _ _ _ _ Heach).
  split_and!; try congruence; try done.
  unfold cache_ok in *. by rewrite Hc, Hn.
Qed.

(** *** getStyle with a callback *)


End StyleFacts.

(** ** More facts about tokens, [trim] and the class-name pattern *)

Module MoreFacts.
Import Chars RegExp Style Tokens Effects More.
Import RegExpFacts TokenFacts TrimFacts CacheFacts StyleFacts.

(** *** The pattern of a className without syntax characters *)




(** *** [rstrip] and [strip] *)

Lemma rstrip_nil t : rstrip t = [] <-> forallb is_space t = true.
Proof.
  destruct t as [|c t]; [done |]. cbn [rstrip].
  by destruct (forallb is_space (c :: t)).
Qed.

Lemma rstrip_app t : exists r, t = rstrip t ++ r /\ forallb is_space r = true.
Proof.
  induction t as [|c t (r & Ht & Hr)]; [by exists [] |].
  cbn [rstrip]. destruct (forallb is_space (c :: t)) eqn:E.
  - by exists (c :: t).
  - exists r. split; [|done]. cbn [app]. by rewrite <- Ht.
Qed.

Lemma all_space_ends_with_space c t :
  forallb is_space (c :: t) = true -> ends_with_space (c :: t).
Proof.
  intros Hall. destruct (c :: t) as [|d u _] eqn:Heq using rev_ind; [done |].
  exists u, d. split; [done |]. rewrite forallb_app in Hall.
  apply andb_true_iff in Hall as [_ Hd]. simpl in Hd. by destruct (is_space d).
Qed.

Lemma ends_with_space_tail c t : t <> [] -> ends_with_space (c :: t) -> ends_with_space t.
Proof.
  intros Hne (a & d & Heq & Hd). destruct a as [|x a].
  - injection Heq as _ ->. done.
  - injection Heq as _ ->. by exists a, d.
Qed.

Lemma rstrip_no_trailing_space t : ~ ends_with_space (rstrip t).
Proof.
  induction t as [|c t IH]; cbn [rstrip].
  - intros (a & d & Heq & _). by destruct a.
  - destruct (forallb is_space (c :: t)) eqn:E.
    + intros (a & d & Heq & _). by destruct a.
    + intros Hends. destruct (rstrip t) as [|x u] eqn:Hr.
      * apply rstrip_nil in Hr. destruct Hends as (a & d & Heq & Hd).
        destruct a as [|y a]; [| by destruct a].
        injection Heq as ->. simpl in E. by rewrite Hd, Hr in E.
      * apply IH. by eapply ends_with_space_tail.
Qed.

Lemma rstrip_fixed t : ~ ends_with_space t -> rstrip t = t.
Proof.
  induction t as [|c t IH]; [done |]. intros Hno. cbn [rstrip].
  destruct (forallb is_space (c :: t)) eqn:E.
  - exfalso. apply Hno. by apply all_space_ends_with_space.
  - rewrite IH; [done |]. intros (a & d & -> & Hd). apply Hno.
    by exists (c :: a), d.
Qed.

Lemma spaces_rstrip t : spaces t = [] -> spaces (rstrip t) = [].
Proof.
  destruct t as [|c t]; [done |]. cbn [rstrip spaces].
  destruct (forallb is_space (c :: t)); [done |]. cbn [spaces].
  by destruct (is_space c).
Qed.

Lemma after_spaces_fixed t : spaces t = [] -> after_spaces t = t.
Proof. intros H. pose proof (spaces_app_after t) as Ht. by rewrite H in Ht. Qed.

(** *** Fields and tokens of a concatenation *)

Lemma fields_snoc a : exists fa la, fields a = fa ++ [la].
Proof.
  pose proof (fields_ne a) as Hne.
  destruct (fields a) as [|f fs _] using rev_ind; [done |]. by exists fs, f.
Qed.

Lemma fields_app a : forall b fa la hb tb,
  fields a = fa ++ [la] -> fields b = hb :: tb ->
  fields (a ++ b) = fa ++ (la ++ hb) :: tb.
Proof.
  induction a as [|x a IH]; intros b fa la hb tb Ha Hb.
  - destruct fa as [|f fa]; [| by destruct fa]. injection Ha as <-. done.
  - destruct (fields_snoc a) as (fa' & la' & Ha').
    pose proof (IH b fa' la' hb tb Ha' Hb) as Hab.
    cbn [app fields] in *. rewrite Hab. rewrite Ha' in Ha.
    destruct (is_space x).
    + change ([] :: fa' ++ [la']) with (([] :: fa') ++ [la']) in Ha.
      apply app_inj_tail in Ha as [<- <-]. done.
    + destruct fa' as [|f fa']; cbn [app] in *.
      * change [x :: la'] with ([] ++ [x :: la']) in Ha.
        apply app_inj_tail in Ha as [<- <-]. done.
      * change ((x :: f) :: fa' ++ [la']) with (((x :: f) :: fa') ++ [la']) in Ha.
        apply app_inj_tail in Ha as [<- <-]. done.
Qed.

Lemma tokens_all_space_app w b :
  forallb is_space w = true -> tokens (w ++ b) = tokens b.
Proof.
  induction w as [|c w IH]; [done |]. cbn [forallb app]. intros H.
  apply andb_true_iff in H as [Hc Hw]. by rewrite tokens_cons_space, IH.
Qed.

Lemma tokens_app_spaces a w b :
  w <> [] -> forallb is_space w = true -> tokens (a ++ w ++ b) = tokens a ++ tokens b.
Proof.
  intros Hne Hall. destruct w as [|c w]; [done |]. cbn [forallb app] in *.
  apply andb_true_iff in Hall as [Hc Hw].
  by rewrite tokens_app_space, tokens_all_space_app.
Qed.

Lemma tokens_nil_no_space t : spaces t = [] -> tokens t = [] -> t = [].
Proof.
  destruct t as [|c t]; [done |]. cbn [spaces]. destruct (is_space c) eqn:E; [done |].
  intros _. unfold tokens. cbn [fields]. rewrite E.
  pose proof (fields_ne t). destruct (fields t); [done |]. simpl. done.
Qed.

Lemma first_occurrence_unique {A} (x : A) l1 : forall l2 l1' l2',
  l1 ++ x :: l2 = l1' ++ x :: l2' -> ~ In x l1 -> ~ In x l1' ->
  l1 = l1' /\ l2 = l2'.
Proof.
  induction l1 as [|y l1 IH]; intros l2 l1' l2' Heq H1 H1'.
  - destruct l1' as [|y' l1']; [by injection Heq as -> |].
    injection Heq as <- _. exfalso. apply H1'. by left.
  - destruct l1' as [|y' l1'].
    + injection Heq as -> _. exfalso. apply H1. by left.
    + injection Heq as <- Heq.
      destruct (IH l2 l1' l2' Heq) as [-> ->]; [| | done].
      * intros H. apply H1. by right.
      * intros H. apply H1'. by right.
Qed.

(** *** Removing the leftmost occurrence, token by token *)

Lemma match_at_one_back cn p c b z :
  is_space c = true -> match_at cn (p ++ [c], b) = Some z ->
  match_at cn (p, c :: b) <> None.
Proof.
  unfold match_at. cbn [fst snd spaces after_spaces]. intros Hc. rewrite Hc.
  rewrite (bool_decide_eq_false_2 (_ :: _ = [])) by done. cbn [andb].
  destruct (bool_decide (spaces b = []) && negb (bool_decide (p ++ [c] = [])));
    [done |].
  destruct (bool_decide (take (length cn) (after_spaces b) = cn)); [|done].
  by destruct (spaces (drop (length cn) (after_spaces b))),
              (drop (length cn) (after_spaces b)).
Qed.

(** The decomposition of [replace_class_regex], with what it leaves
    unsaid: the text kept before the removed occurrence does not end in
    white space. *)
Lemma replace_class_regex_edges cn s :
  cn <> [] -> nospace cn -> In cn (tokens s) ->
  exists pre w1 w2 post,
    s = pre ++ w1 ++ cn ++ w2 ++ post
    /\ forallb is_space w1 = true /\ forallb is_space w2 = true
    /\ (w1 = [] -> pre = []) /\ (w2 = [] -> post = [])
    /\ spaces post = [] /\ ~ ends_with_space pre
    /\ ~ In cn (tokens pre)
    /\ replace_first (class_regex cn) s = pre ++ post.
Proof.
  intros Hne Hns Hin.
  destruct (nospace_starts cn Hne Hns) as (c0 & cn' & Hcn & Hc0).
  apply (test_class_regex cn s Hne Hns) in Hin.
  unfold test in Hin. unfold replace_first.
  destruct (exec (class_regex cn) s) as [[q [q' post]]|] eqn:Hex; [clear Hin | done].
  apply scan_some in Hex as (a & b & -> & -> & Hm & Hearly). cbn [app] in *.
  rewrite (match_here_class_regex cn c0 cn') in Hm by done.
  pose proof Hm as Hm0.
  apply match_at_some in Hm as (w2 & Hb & -> & Hw2 & Ha & Hpost & Hsp).
  exists a, (spaces b), w2, post. split_and!; try done.
  - by rewrite <- Hb.
  - apply spaces_all.
  - intros (p & c & -> & Hc).
    apply (match_at_one_back cn p c b _ Hc Hm0).
    rewrite <- (match_here_class_regex cn c0 cn') by done.
    apply (Hearly p (c :: b)); [by rewrite <- app_assoc |].
    rewrite length_app. simpl. lia.
  - intros Hpre. apply in_tokens_delimits in Hpre as (a' & rest' & -> & Hl & Hr);
      [| done | done].
    assert (Hd : delimits a' (rest' ++ b)).
    { split; [done |]. destruct Hr as [-> | (c & r & -> & Hc)].
      - destruct (spaces_nil_or_starts b) as [Hnil | Hst]; [|by right].
        apply Ha in Hnil. apply app_eq_nil in Hnil as [_ Hnil].
        apply app_eq_nil in Hnil as [Hnil _]. done.
      - right. by exists c, (r ++ b). }
    destruct (delimits_match_at cn c0 cn' a' (rest' ++ b) Hcn Hc0 Hd)
      as (a0 & b0 & Heq & Hlen & Hm1).
    apply Hm1. rewrite <- (match_here_class_regex cn c0 cn') by done.
    apply (Hearly a0 b0).
    + rewrite <- Heq. by rewrite <- !app_assoc.
    + rewrite !length_app. destruct cn; [done |]. simpl. lia.
Qed.

(** The tokens of a className around the occurrence that is removed. *)
Lemma tokens_around cn pre w1 w2 post :
  cn <> [] -> nospace cn ->
  forallb is_space w1 = true -> forallb is_space w2 = true ->
  (w1 = [] -> pre = []) -> (w2 = [] -> post = []) ->
  tokens (pre ++ w1 ++ cn ++ w2 ++ post) = tokens pre ++ cn :: tokens post.
Proof.
  intros Hne Hns Hw1 Hw2 Hpre Hpost.
  assert (Hright : tokens (cn ++ w2 ++ post) = cn :: tokens post).
  { destruct (decide (w2 = [])) as [-> | Hw].
    - rewrite (Hpost eq_refl), !app_nil_r. by rewrite tokens_nospace.
    - rewrite tokens_app_spaces by done. by rewrite tokens_nospace. }
  destruct (decide (w1 = [])) as [-> | Hw].
  - by rewrite (Hpre eq_refl).
  - rewrite tokens_app_spaces by done. by rewrite Hright.
Qed.

Lemma not_ends_with_space_snoc pre :
  pre <> [] -> ~ ends_with_space pre ->
  exists p c, pre = p ++ [c] /\ is_space c = false.
Proof.
  intros Hne Hno. destruct pre as [|c p _] using rev_ind; [done |].
  exists p, c. split; [done |]. destruct (is_space c) eqn:E; [|done].
  exfalso. apply Hno. by exists p, c.
Qed.

Lemma filter_nonempty_app (l1 l2 : list jsstring) :
  List.filter (fun f => negb (bool_decide (f = []))) (l1 ++ l2)
  = List.filter (fun f => negb (bool_decide (f = []))) l1
    ++ List.filter (fun f => negb (bool_decide (f = []))) l2.
Proof. apply List.filter_app. Qed.

(** Gluing two texts glues the last token of the first to the first token
    of the second, unless white space or nothing stands between them. *)
Lemma tokens_glue pre post :
  ~ ends_with_space pre -> spaces post = [] ->
  tokens (pre ++ post) = fuse (tokens pre) (tokens post).
Proof.
  intros Hpre Hpost.
  destruct post as [|d post'].
  { rewrite app_nil_r. done. }
  destruct (decide (pre = [])) as [-> | Hne].
  { cbn [app]. by destruct (tokens (d :: post')). }
  destruct (not_ends_with_space_snoc pre Hne Hpre) as (p & c & -> & Hc).
  cbn [spaces] in Hpost. destruct (is_space d) eqn:Hd; [done |].
  destruct (fields_snoc p) as (fa & la & Hp).
  assert (Hfpre : fields (p ++ [c]) = fa ++ [la ++ [c]]).
  { apply (fields_app p [c] fa la [c] []); [done |]. simpl. by rewrite Hc. }
  assert (Hfpost : exists f fs, fields (d :: post') = (d :: f) :: fs).
  { cbn [fields]. rewrite Hd. pose proof (fields_ne post').
    destruct (fields post') as [|f fs]; [done |]. by exists f, fs. }
  destruct Hfpost as (f & fs & Hfpost).
  pose proof (fields_app (p ++ [c]) (d :: post') fa (la ++ [c]) (d :: f) fs
                Hfpre Hfpost) as Hall.
  unfold tokens. rewrite Hall, Hfpre, Hfpost.
  rewrite !filter_nonempty_app. cbn [List.filter].
  rewrite !bool_decide_eq_false_2; [| done | by destruct la | by destruct la].
  cbn [negb]. unfold fuse. rewrite rev_app_distr. cbn [rev app].
  by rewrite rev_involutive.
Qed.

(** What [removeClass] leaves of the tokens: the leftmost occurrence of the
    name goes and its two neighbours, if it has two, become one token. *)
Lemma replace_tokens cn s ts1 ts2 :
  cn <> [] -> nospace cn ->
  tokens s = ts1 ++ cn :: ts2 -> ~ In cn ts1 ->
  tokens (replace_first (class_regex cn) s) = fuse ts1 ts2.
Proof.
  intros Hne Hns Htok Hfirst.
  assert (Hin : In cn (tokens s)).
  { rewrite Htok. apply in_app_iff. right. by left. }
  destruct (replace_class_regex_edges cn s Hne Hns Hin)
    as (pre & w1 & w2 & post & Hs & Hw1 & Hw2 & Hpre0 & Hpost0 & Hsp & Hedge
        & Hnot & Hrep).
  rewrite Hrep, tokens_glue by done.
  rewrite Hs, tokens_around in Htok by done.
  by destruct (first_occurrence_unique cn _ _ _ _ Htok Hnot Hfirst) as [-> ->].
Qed.

Lemma replace_absent cn s :
  cn <> [] -> nospace cn -> ~ In cn (tokens s) ->
  replace_first (class_regex cn) s = s.
Proof.
  intros Hne Hns Hno. apply replace_first_no_match.
  destruct (test (class_regex cn) s) eqn:E; [|done].
  by apply test_class_regex in E.
Qed.

(** [trim] of a space and a plain name is the name. *)
Lemma trim_space_name cn :
  cn <> [] -> nospace cn -> trim (js " " ++ cn) = cn.
Proof.
  intros Hne Hns. rewrite trim_strip. unfold strip.
  change (js " " ++ cn) with (32%N :: cn). cbn [after_spaces].
  change (is_space 32) with true. cbv iota.
  destruct (nospace_starts cn Hne Hns) as (c0 & cn' & -> & Hc0).
  rewrite after_spaces_fixed by (simpl; by rewrite Hc0).
  apply rstrip_fixed. intros (a & d & Heq & Hd).
  assert (Hlast : is_space d = false).
  { unfold nospace in Hns. rewrite Heq in Hns. apply Forall_app in Hns as [_ Hns].
    by inversion Hns. }
  congruence.
Qed.

Lemma rstrip_app_spaces t w :
  forallb is_space w = true -> rstrip (t ++ w) = rstrip t.
Proof.
  intros Hw. induction t as [|c t IH].
  - cbn [app]. by apply rstrip_nil.
  - cbn [app rstrip]. change (c :: t ++ w) with ((c :: t) ++ w).
    rewrite forallb_app, Hw, andb_true_r. by rewrite IH.
Qed.

Lemma after_spaces_app_nospace u c0 v :
  is_space c0 = false ->
  after_spaces (u ++ c0 :: v)
  = if forallb is_space u then c0 :: v else after_spaces u ++ c0 :: v.
Proof.
  intros Hc0. induction u as [|x u IH]; cbn [app after_spaces forallb].
  - by rewrite Hc0.
  - destruct (is_space x); [done |]. done.
Qed.

(** *** Looking a class name up, whatever the name *)

Lemma cache_get_same w w' cn :
  reClassNameCache w' = reClassNameCache w -> cache_get w' cn = cache_get w cn.
Proof. intros H. unfold cache_get. by rewrite H. Qed.

(** The four ways a lookup can end. *)
Lemma getClassRegEx_outcome cn w :
  (exists re w0, getClassRegEx cn w = Ok (Own re) w0
                 /\ same_but_cache w w0 /\ compiled w0 <= S (compiled w)
                 /\ cache_get w0 cn = Some (Own re))
  \/ (exists n, getClassRegEx cn w = Ok (Inherited n) w)
  \/ getClassRegEx cn w = Throw SyntaxError w
  \/ getClassRegEx cn w = Unmodelled.
Proof.
  destruct (getClassRegEx cn w) as [[re|n] w0 | e w0 |] eqn:Hget.
  - left. exists re, w0. split_and!; try done.
    + by eapply getClassRegEx_frame.
    + revert Hget. unfold getClassRegEx. destruct (cache_get w cn).
      * intros [= _ <-]. lia.
      * destruct (compile (pattern_of cn)); [|done..]. intros [= _ <-]. simpl. lia.
    + by eapply getClassRegEx_ok_cached.
  - right. left. exists n. revert Hget. unfold getClassRegEx.
    destruct (cache_get w cn); [by intros [= -> ->] |].
    by destruct (compile (pattern_of cn)).
  - right. right. left. revert Hget. unfold getClassRegEx.
    destruct (cache_get w cn); [done |].
    destruct (compile (pattern_of cn)); [done | | done]. by intros [= <- <-].
  - by right; right; right.
Qed.



Lemma hasClass_helper_inherited el cn w :
  cache_ok w -> inherited cn = true -> hasClass_helper el cn w = Throw TypeError w.
Proof.
  intros [Hvalid _] Hinh.
  assert (Hget : getClassRegEx cn w = Ok (Inherited cn) w).
  { unfold getClassRegEx, cache_get.
    destruct (reClassNameCache w !! cn) as [re|] eqn:Hlook.
    - destruct (Hvalid cn re Hlook) as [_ H]. congruence.
    - by rewrite Hinh. }
  unfold hasClass_helper. by rewrite (bind_ok _ _ _ _ _ Hget).
Qed.



(** *** addClass once the pattern is there *)

Lemma hasClass_helper_compiled el cn w re w0 :
  getClassRegEx cn w = Ok (Own re) w0 ->
  hasClass_helper el cn w = Ok (test (re_ast re) (className (heap w0 el))) w0.
Proof.
  intros Hget. unfold hasClass_helper. by rewrite (bind_ok _ _ _ _ _ Hget).
Qed.

Lemma addClass_fn_compiled cn el w re w0 :
  getClassRegEx cn w = Ok (Own re) w0 ->
  exists w1, addClass_fn cn el w = Ok tt w1 /\ same_but_heap w0 w1
             /\ same_styles w w1
             /\ forall l, l <> el -> heap w1 l = heap w l.
Proof.
  intros Hget. destruct (getClassRegEx_frame cn w _ w0 Hget) as (Hheap & _).
  unfold addClass_fn.
  rewrite (bind_ok _ _ _ _ _ (hasClass_helper_compiled el cn w re w0 Hget)).
  destruct (test (re_ast re) (className (heap w0 el))).
  - exists w0. split_and!; try done.
    + intros l. by rewrite Hheap.
    + intros l _. by rewrite Hheap.
  - eexists. split; [reflexivity |]. split_and!; try done.
    + intros l. cbn [set_heap heap]. unfold update. rewrite Hheap.
      by destruct (decide (l = el)) as [-> |].
    + intros l Hne. cbn [set_heap heap]. unfold update. rewrite Hheap.
      by rewrite decide_False.
Qed.

Lemma addClass_each_cached cn re this : forall w,
  cache_get w cn = Some (Own re) ->
  exists w', each_from (addClass_fn cn) this w = Ok tt w' /\ same_but_heap w w'
             /\ same_styles w w'
             /\ forall l, l ∉ this -> heap w' l = heap w l.
Proof.
  induction this as [|el this IH]; intros w Hc.
  - exists w. by split_and!.
  - destruct (addClass_fn_compiled cn el w re w (getClassRegEx_cached _ _ _ Hc))
      as (w1 & Hstep & Hfr1 & Hst1 & Hother1).
    assert (Hc1 : cache_get w1 cn = Some (Own re)).
    { destruct Hfr1 as (Hcache & _). by rewrite (cache_get_same w w1). }
    destruct (IH w1 Hc1) as (w' & Hrest & Hfr' & Hst' & Hother').
    exists w'. cbn [each_from]. rewrite (bind_ok _ _ _ _ _ Hstep).
    split_and!; [done | by eapply same_but_heap_trans | |].
    + intros l. by rewrite Hst', Hst1.
    + intros l Hl. apply not_elem_of_cons in Hl as [Hne Hl].
      by rewrite Hother', Hother1.
Qed.





(** *** hasClass over elements with ordinary classNames *)



(** *** addClass and then removeClass *)

Lemma not_ends_with_space_name cn x :
  cn <> [] -> nospace cn -> ~ ends_with_space (x ++ cn).
Proof.
  intros Hne Hns (a & d & Heq & Hd).
  destruct cn as [|z cn0 _] using rev_ind; [done |].
  rewrite app_assoc in Heq. apply app_inj_tail in Heq as [_ ->].
  unfold nospace in Hns. apply Forall_app in Hns as [_ Hns].
  inversion Hns. congruence.
Qed.

Lemma iter_replace_absent cn k : forall s,
  cn <> [] -> nospace cn -> ~ In cn (tokens s) ->
  Nat.iter k (replace_first (class_regex cn)) s = s.
Proof.
  induction k as [|k IH]; intros s Hne Hns Hno; [done |].
  rewrite Nat.iter_succ_r, replace_absent by done. by apply IH.
Qed.

(** Removing the name from what [addClass] stored gives the trimmed
    original. *)
Lemma replace_added cn s :
  cn <> [] -> nospace cn -> ~ In cn (tokens s) ->
  replace_first (class_regex cn) (trim (s ++ js " " ++ cn)) = trim s.
Proof.
  intros Hne Hns Hno. set (s1 := trim (s ++ js " " ++ cn)).
  assert (Htok : tokens s1 = tokens s ++ [cn]) by by apply tokens_add.
  assert (Hin : In cn (tokens s1)).
  { rewrite Htok. apply in_app_iff. right. by left. }
  destruct (replace_class_regex_edges cn s1 Hne Hns Hin)
    as (pre & w1 & w2 & post & Hs1 & Hw1 & Hw2 & Hpre0 & Hpost0 & Hsp & Hedge
        & Hnot & Hrep).
  rewrite Hrep.
  (* the removed occurrence is the one at the end *)
  pose proof Htok as Htok'. rewrite Hs1, tokens_around in Htok' by done.
  destruct (first_occurrence_unique cn _ _ _ _ Htok' Hnot Hno) as [Hpre Hpost].
  apply tokens_nil_no_space in Hpost; [|done]. subst post. rewrite app_nil_r in *.
  assert (Hw2nil : w2 = []).
  { destruct w2 as [|y w2 _] using rev_ind; [done |]. exfalso.
    assert (Hends : ends_with_space s1).
    { rewrite Hs1. exists (pre ++ w1 ++ cn ++ w2), y.
      split; [by rewrite <- !app_assoc |].
      rewrite forallb_app in Hw2. apply andb_true_iff in Hw2 as [_ Hy].
      simpl in Hy. by destruct (is_space y). }
    revert Hends. unfold s1. rewrite trim_strip. apply rstrip_no_trailing_space. }
  subst w2. rewrite app_nil_r in Hs1.
  (* compare with the trimmed text written out *)
  destruct (nospace_starts cn Hne Hns) as (c0 & cn' & Hcn & Hc0).
  assert (Hs1' : s1 = (if forallb is_space (s ++ js " ") then [] else
                         after_spaces (s ++ js " ")) ++ cn).
  { unfold s1. rewrite trim_strip. unfold strip.
    rewrite (app_assoc s (js " ") cn), Hcn, after_spaces_app_nospace by done.
    rewrite <- Hcn. rewrite rstrip_fixed.
    - by destruct (forallb is_space (s ++ js " ")).
    - destruct (forallb is_space (s ++ js " "));
        [apply (not_ends_with_space_name cn []) | apply not_ends_with_space_name];
        done. }
  rewrite Hs1 in Hs1'. rewrite (app_assoc pre w1 cn) in Hs1'.
  apply app_inv_tail in Hs1'.
  rewrite trim_strip. unfold strip.
  rewrite forallb_app in Hs1'. cbn [forallb js] in Hs1'.
  change (forallb is_space (map N_of_ascii (list_ascii_of_string " "))) with true
    in Hs1'.
  rewrite andb_true_r in Hs1'.
  destruct (forallb is_space s) eqn:Hall.
  - apply app_eq_nil in Hs1' as [-> _].
    destruct (spaces_all_space s Hall) as [_ ->]. done.
  - assert (Hafter : after_spaces (s ++ js " ") = after_spaces s ++ js " ").
    { clear -Hall. induction s as [|x s IH]; [done |]. cbn [forallb] in Hall.
      cbn [app after_spaces]. destruct (is_space x); [by apply IH | done]. }
    rewrite Hafter in Hs1'.
    rewrite <- (rstrip_app_spaces (after_spaces s) (js " ")) by done.
    rewrite <- Hs1', rstrip_app_spaces by done. by rewrite rstrip_fixed.
Qed.

(** *** The inline style after [css] *)

Lemma assign_app pf o1 o2 m :
  assign pf (o1 ++ o2) m = assign pf o2 (assign pf o1 m).
Proof. unfold assign. apply fold_left_app. Qed.


Lemma written_by_none pf o k :
  written_by pf o k = None
  <-> forall kv, kv ∈ o -> written (assigned pf kv.1 kv.2) k = None.
Proof.
  induction o as [|[p v] o IH].
  - split; [|done]. intros _ kv Hkv. by apply elem_of_nil in Hkv.
  - rewrite written_by_cons. split.
    + intros H kv Hkv. destruct (written_by pf o k) eqn:E; [done |].
      apply elem_of_cons in Hkv as [-> | Hkv]; [done |]. by apply IH.
    + intros H. assert (E : written_by pf o k = None).
      { apply IH. intros kv Hkv. apply H. by right. }
      rewrite E. apply (H (p, v)). by left.
Qed.

Lemma written_by_some pf o k x :
  written_by pf o k = Some x ->
  exists kv, kv ∈ o /\ written (assigned pf kv.1 kv.2) k = Some x.
Proof.
  induction o as [|[p v] o IH]; [done |].
  rewrite written_by_cons. destruct (written_by pf o k) as [y|] eqn:E.
  - intros [= ->]. destruct (IH eq_refl) as (kv & Hkv & Hw).
    exists kv. split; [by right | done].
  - intros Hw. exists (p, v). split; [by left | done].
Qed.


Lemma written_by_separate pf o kv k x :
  separate pf o -> kv ∈ o -> written (assigned pf kv.1 kv.2) k = Some x ->
  written_by pf o k = Some x.
Proof.
  intros Hsep Hkv Hw. destruct (written_by pf o k) as [y|] eqn:E.
  - destruct (written_by_some pf o k y E) as (kv' & Hkv' & Hw').
    assert (kv = kv') as <- by (apply (Hsep kv kv' k); congruence).
    congruence.
  - rewrite written_by_none in E. rewrite (E kv Hkv) in Hw. done.
Qed.

Lemma separate_perm pf o o' : o ≡ₚ o' -> separate pf o -> separate pf o'.
Proof.
  intros Hperm Hsep kv kv' k Hkv Hkv'. apply Hsep; by rewrite Hperm.
Qed.

Lemma assign_perm pf o o' m :
  separate pf o -> o ≡ₚ o' -> assign pf o m = assign pf o' m.
Proof.
  intros Hsep Hperm. apply map_eq. intros k. rewrite !assign_lookup.
  destruct (written_by pf o k) as [y|] eqn:E.
  - destruct (written_by_some pf o k y E) as (kv & Hkv & Hw).
    rewrite (written_by_separate pf o' kv k y); [done | | | done].
    + by eapply separate_perm.
    + by rewrite <- Hperm.
  - assert (E' : written_by pf o' k = None).
    { rewrite written_by_none in E. apply written_by_none.
      intros kv Hkv. apply E. by rewrite Hperm. }
    by rewrite E'.
Qed.

End MoreFacts.

(** ** The model on small inputs *)

Module Sanity.
Import Chars RegExp Style Tokens Effects Examples.

Example class_pattern_parsed :
  compile (pattern_of (js "b")) = Parsed (class_regex (js "b")).
Proof. reflexivity. Qed.

Example whole_tokens_only :
  test (class_regex (js "b")) (js "ab") = false
  /\ test (class_regex (js "b")) (js "a b") = true
  /\ test (class_regex (js "b")) (js "ab bc") = false.
Proof. by split_and!. Qed.

Example scenario_remove_foo :
  replace_first (class_regex (js "foo")) (js "foo") = []
  /\ replace_first (class_regex (js "foo")) (js "foo bar") = js "bar".
Proof. by split_and!. Qed.

Example trim_both_ends :
  trim (js "  a b  ") = js "a b" /\ trim [160; 97; 9; 10]%N = [97]%N
  /\ trim (js "   ") = [].
Proof. by split_and!. Qed.

Example alternatives_in_order : remove "a|ab" "xab" = Some (js "xb").
Proof. reflexivity. Qed.

Example greedy_then_backtrack : remove "a*ab" "caaabd" = Some (js "cd").
Proof. reflexivity. Qed.

Example lazy_takes_least : remove "a+?" "caaab" = Some (js "caab").
Proof. reflexivity. Qed.

Example empty_iteration_rejected : remove "(?:a*)*b" "aab" = Some [].
Proof. reflexivity. Qed.

Example unbalanced_is_an_error :
  compile (pattern_of (js "(")) = SyntaxErr
  /\ compile (pattern_of (js ")")) = SyntaxErr
  /\ compile (pattern_of (js "c++")) = SyntaxErr.
Proof. by split_and!. Qed.

Example inherited_name_is_not_a_pattern :
  exists w, addClass (js "constructor") (Collection 0 [0%nat]) (fresh blank inline_only)
            = Throw TypeError w.
Proof. by eexists. Qed.

Example inherited_name_is_searched_as_text :
  exists w,
    removeClass (Some (js "valueOf")) (Collection 0 [0%nat])
                (fresh (all_with (js "a valueOf")) inline_only)
    = Ok (RColl (Collection 0 [0%nat])) w
    /\ className (heap w 0%nat) = js "a valueOf".
Proof. by eexists. Qed.

Example first_occurrence_of_a_text :
  replace_string (js "ab") (js "xabyab") = js "xyab"
  /\ replace_string [] (js "ab") = js "ab"
  /\ replace_string (js "c") (js "ab") = js "ab".
Proof. by split_and!. Qed.

Example invalid_value_is_dropped :
  exists w,
    setStyle (js "margin-top") (js "wide") (Collection 0 [0%nat])
             (fresh blank with_margins)
    = Ok (RColl (Collection 0 [0%nat])) w
    /\ style (heap w 0%nat) !! js "margin-top" = None.
Proof. by eexists. Qed.

Example value_is_normalised :
  exists w,
    setStyle (js "margin-top") (js "0") (Collection 0 [0%nat])
             (fresh blank with_margins)
    = Ok (RColl (Collection 0 [0%nat])) w
    /\ style (heap w 0%nat) !! js "margin-top" = Some (js "0px").
Proof. by eexists. Qed.

Example shorthand_and_longhand_in_two_orders :
  exists w1 w2,
    css [(js "margin", js "0"); (js "margin-top", js "5px")] (Collection 0 [0%nat])
        (fresh blank with_margins) = Ok (RColl (Collection 0 [0%nat])) w1
    /\ css [(js "margin-top", js "5px"); (js "margin", js "0")] (Collection 0 [0%nat])
           (fresh blank with_margins) = Ok (RColl (Collection 0 [0%nat])) w2
    /\ style (heap w1 0%nat) !! js "margin-top" = Some (js "5px")
    /\ style (heap w2 0%nat) !! js "margin-top" = Some (js "0px").
Proof. eexists _, _. by split_and!. Qed.

End Sanity.

(** ** The properties of the specification *)

Import Chars RegExp Style Tokens Effects Examples More.
Import RegExpFacts TokenFacts TrimFacts CacheFacts StyleFacts MoreFacts.

(** C1 (fails on the code): on an element whose className is "a b c",
    [removeClass("b")] stores "ac": the match takes the white space on both
    sides of the token, so the neighbours "a" and "c" are merged into the one
    token "ac" and are no longer classes of the element. *)
Theorem removeClass_middle_token_merges_neighbours
        (h : heap_t) (pf : platform) (id el : nat) (st : gmap jsstring jsstring) :
  exists w',
    removeClass (Some (js "b")) (Collection id [el])
                (fresh (update el (Element (js "a b c") st) h) pf)
    = Ok (RColl (Collection id [el])) w'
    /\ className (heap w' el) = js "ac"
    /\ tokens (className (heap w' el)) = [js "ac"]
    /\ ~ In (js "a") (tokens (className (heap w' el)))
    /\ ~ In (js "c") (tokens (className (heap w' el))).
Proof.
  set (w := fresh _ pf).
  destruct (removeClass_plain_spec (js "b") (Collection id [el]) w
              (fresh_cache_ok _ _) eq_refl)
    as (w' & Hrun & _ & _ & _ & Hheap).
  exists w'. split; [done |].
  assert (Hcn : className (heap w' el) = js "ac").
  { rewrite Hheap, className_iter_without_class. cbn [elems].
    rewrite visits_cons, decide_True by done.
    unfold w, fresh, update. cbn [heap visits count_occ Nat.iter nat_rect].
    rewrite decide_True by done. by vm_compute. }
  rewrite Hcn. split_and!; [done | by vm_compute | |]; vm_compute; intuition congruence.
Qed.

(** C2 (fails on the code): [hasClass("bar", callback)] on a collection
    holding an element whose className is "foo" invokes the callback on that
    element, although "bar" is not one of its classes: the iteration tests
    each element's className against the pattern of that same className and
    never reads the [className] argument. *)
Theorem hasClass_callback_ignores_className
        (h : heap_t) (pf : platform) (id el : nat) (st : gmap jsstring jsstring)
        (cb : callback) :
  exists w',
    left_by (hasClass (Some (js "bar")) (Some cb) (Collection id [el])
                      (fresh (update el (Element (js "foo") st) h) pf))
    = Some w'
    /\ calls w' = [VEl el]
    /\ ~ In (js "bar") (tokens (js "foo")).
Proof.
  set (w := fresh _ pf).
  assert (Hs : className (heap w el) = js "foo").
  { unfold w, fresh, update. cbn [heap]. by rewrite decide_True. }
  destruct (hasClass_helper_plain el (js "foo") w (fresh_cache_ok _ _) eq_refl)
    as (w1 & Hhas & (Hheap & Hcalls & _) & _).
  rewrite Hs in Hhas.
  replace (test (class_regex (js "foo")) (js "foo")) with true in Hhas
    by by vm_compute.
  assert (Hfn : hasClass_fn (Some cb) el w = invoke (Some cb) (VEl el) w1).
  { unfold hasClass_fn.
    rewrite (bind_ok (get_className el) _ w (js "foo") w)
      by (unfold get_className; by rewrite Hs).
    by rewrite (bind_ok _ _ w true w1 Hhas). }
  assert (Hno : ~ In (js "bar") (tokens (js "foo")))
    by (vm_compute; intuition congruence).
  unfold hasClass, each. cbn [elems each_from].
  rewrite !left_by_bind_ret, Hfn. unfold invoke.
  destruct (cb (VEl el) (heap w1)) as [h1 [e|]]; eexists;
    (split; [reflexivity |]); cbn [set_heap calls]; by rewrite Hcalls.
Qed.




(** C4 as stated fails: the class name "a+" is read as a pattern.  On an
    element without classes [addClass("a+")] stores "a+", and the membership
    test for "a+" against that className still answers [false]. *)
Lemma addClass_pattern_name_counterexample :
  ~ In (js "a+") (tokens (className (heap (fresh blank inline_only) 0%nat)))
  /\ exists w1 w2,
       addClass (js "a+") (Collection 0 [0%nat]) (fresh blank inline_only) = Ok (RColl (Collection 0 [0%nat])) w1
       /\ className (heap w1 0%nat) = js "a+"
       /\ hasClass_helper 0%nat (js "a+") w1 = Ok false w2.
Proof.
  split; [vm_compute; tauto |].
  eexists _, _. split_and!; reflexivity.
Qed.

(** C4 (amended): for every plain class name C (ordinary pattern characters
    only, no white space, not empty, not a name the cache object inherits)
    and every collection, [addClass(C)] returns the collection; an element
    of it that lacked C as a whole token gets its className extended by a
    space and C and then trimmed, so that its tokens are the old ones and C;
    afterwards the membership test for C succeeds on every element of the
    collection; an element that already had C is left as it was; and a
    second [addClass(C)] changes no element. *)
Theorem addClass_plain (cn : jsstring) (this : collection) (w : world) :
  cache_ok w -> plain cn = true ->
  exists w1,
    addClass cn this w = Ok (RColl this) w1
    /\ (forall el, el ∈ elems this -> ~ In cn (tokens (className (heap w el))) ->
          className (heap w1 el) = trim (className (heap w el) ++ js " " ++ cn)
          /\ tokens (className (heap w1 el)) = tokens (className (heap w el)) ++ [cn])
    /\ (forall el, el ∈ elems this ->
          In cn (tokens (className (heap w1 el)))
          /\ exists w', hasClass_helper el cn w1 = Ok true w')
    /\ (forall el, el ∈ elems this -> In cn (tokens (className (heap w el))) ->
          heap w1 el = heap w el)
    /\ (forall el, el ∉ elems this -> heap w1 el = heap w el)
    /\ exists w2,
         addClass cn this w1 = Ok (RColl this) w2
         /\ forall el, heap w2 el = heap w1 el.
Proof.
  intros Hok Hplain. destruct (plain_spec cn Hplain) as (Hne & Hns & _).
  destruct (addClass_spec cn this w Hplain Hok) as (w1 & Hrun & Hok1 & _ & Hheap).
  exists w1. split_and!; [done | | | | |].
  - intros el Hin Hlacks. rewrite Hheap, decide_True by done. unfold with_class.
    destruct (test (class_regex cn) (className (heap w el))) eqn:E.
    + by apply test_class_regex in E.
    + cbn [className]. by rewrite tokens_add.
  - intros el Hin.
    assert (Htest : test (class_regex cn) (className (heap w1 el)) = true).
    { rewrite Hheap, decide_True by done. by apply with_class_test. }
    split; [by apply test_class_regex in Htest |].
    destruct (hasClass_helper_plain el cn w1 Hok1 Hplain) as (w' & Hhas & _).
    exists w'. by rewrite Hhas, Htest.
  - intros el Hin Hhas. rewrite Hheap, decide_True by done. unfold with_class.
    apply (test_class_regex cn _ Hne Hns) in Hhas. by rewrite Hhas.
  - intros el Hnotin. by rewrite Hheap, decide_False.
  - destruct (addClass_spec cn this w1 Hplain Hok1) as (w2 & Hrun2 & _ & _ & Hheap2).
    exists w2. split; [done |]. intros el. rewrite Hheap2, Hheap.
    destruct (decide (el ∈ elems this)); [|done]. by apply with_class_idem.
Qed.

Lemma addClass_plain_witness :
  exists w1,
    addClass (js "c") (Collection 0 [0%nat; 1%nat]) (fresh (all_with (js "a b")) inline_only)
    = Ok (RColl (Collection 0 [0%nat; 1%nat])) w1
    /\ tokens (className (heap w1 1%nat)) = [js "a"; js "b"; js "c"].
Proof.
  destruct (addClass_plain (js "c") (Collection 0 [0%nat; 1%nat])
              (fresh (all_with (js "a b")) inline_only)
              (fresh_cache_ok _ _) eq_refl)
    as (w1 & Hrun & Hnew & _).
  exists w1. split; [exact Hrun |].
  assert (Hin : 1%nat ∈ [0%nat; 1%nat]) by (apply list_elem_of_In; simpl; tauto).
  assert (Hlacks : ~ In (js "c") (tokens (className (heap (fresh (all_with (js "a b")) inline_only) 1%nat)))).
  { vm_compute. intuition congruence. }
  destruct (Hnew 1%nat Hin Hlacks) as [_ Htok]. rewrite Htok. reflexivity.
Defined.



(** C6: for every properties object [o], [css(o)] returns the collection and
    leaves every element with the inline style that the calls
    [setStyle(key, o[key])], made on the whole collection for each key of [o]
    in sequence, leave it with, which is what the style object stores when
    the assignments of [o] are made once each, in order; nothing else
    changes. *)
Theorem css_as_setStyle_sequence
        (o : list (jsstring * jsstring)) (this : collection) (w : world) :
  exists w1 w2,
    css o this w = Ok (RColl this) w1
    /\ setStyle_each_key o this w = Ok (RColl this) w2
    /\ (forall el, heap w1 el = heap w2 el)
    /\ same_but_heap w w1 /\ same_but_heap w w2
    /\ (forall el, el ∈ elems this ->
          style (heap w1 el) = assign (host w) o (style (heap w el))
          /\ className (heap w1 el) = className (heap w el)).
Proof.
  destruct (css_spec o this w) as (w1 & Hcss & Hfr1 & Hheap1).
  destruct (for_in_setStyle_spec o this w) as (w2 & Hseq & Hfr2 & Hheap2).
  exists w1, w2. split_and!; try done.
  - unfold setStyle_each_key. by rewrite (bind_ok _ _ _ _ _ Hseq).
  - intros el. by rewrite Hheap1, Hheap2.
  - intros el Hin. rewrite Hheap1, decide_True by done.
    by rewrite with_styles_assign.
Qed.

(** C7: [removeClass()] without an argument returns the collection and
    leaves every element of it with the empty className; inline styles and
    the other elements are as before. *)
Theorem removeClass_without_argument (this : collection) (w : world) :
  exists w',
    removeClass None this w = Ok (RColl this) w'
    /\ (forall el, el ∈ elems this ->
          className (heap w' el) = [] /\ style (heap w' el) = style (heap w el))
    /\ (forall el, el ∉ elems this -> heap w' el = heap w el).
Proof.
  destruct (removeClass_none_spec this w) as (w' & Hrun & _ & Hheap).
  exists w'. split_and!; [done | |].
  - intros el Hin. by rewrite Hheap, decide_True.
  - intros el Hnotin. by rewrite Hheap, decide_False.
Qed.









(** ** Further properties of the code *)

(** X1: [trim] (lines 20-24) removes the white space at the two ends of its
    argument and nothing else: the argument is the result between two runs
    of white space, and the result neither begins nor ends with white
    space; trimming again changes nothing, and no class token is lost or
    altered. *)
Theorem trim_removes_outer_white_space (s : jsstring) :
  (exists l r,
     s = l ++ trim s ++ r
     /\ forallb is_space l = true /\ forallb is_space r = true)
  /\ ~ starts_with_space (trim s)
  /\ ~ ends_with_space (trim s)
  /\ trim (trim s) = trim s
  /\ tokens (trim s) = tokens s.
Proof.
  assert (Hhead : spaces (trim s) = []).
  { rewrite trim_strip. apply spaces_rstrip, after_spaces_head. }
  assert (Hlast : ~ ends_with_space (trim s)).
  { rewrite trim_strip. apply rstrip_no_trailing_space. }
  split_and!.
  - destruct (rstrip_app (after_spaces s)) as (r & Hr & Hall).
    exists (spaces s), r. rewrite trim_strip. unfold strip.
    split_and!; [| apply spaces_all | done].
    by rewrite <- Hr, spaces_app_after.
  - intros (c & t & Heq & Hc). rewrite Heq in Hhead. simpl in Hhead.
    by rewrite Hc in Hhead.
  - done.
  - rewrite (trim_strip (trim s)). unfold strip.
    rewrite after_spaces_fixed by done. by apply rstrip_fixed.
  - apply tokens_trim.
Qed.

(** X2: the helper [hasClass(el, className)] (lines 14-16) with a plain
    class name answers whether the name is one of the white-space-delimited
    tokens of the element's className: a name that only occurs inside a
    longer token is not found.  The call changes no element. *)
Theorem hasClass_helper_is_token_membership
        (el : nat) (cn : jsstring) (w : world) :
  cache_ok w -> plain cn = true ->
  exists b w',
    hasClass_helper el cn w = Ok b w'
    /\ (b = true <-> In cn (tokens (className (heap w el))))
    /\ (b = true <->
        exists before behind,
          className (heap w el) = before ++ cn ++ behind /\ delimits before behind)
    /\ heap w' = heap w /\ cache_ok w'.
Proof.
  intros Hok Hplain. destruct (plain_spec cn Hplain) as (Hne & Hns & _).
  destruct (hasClass_helper_plain el cn w Hok Hplain)
    as (w' & Hhas & (Hheap & _) & Hok').
  eexists _, w'. split; [exact Hhas |]. split_and!; try done.
  - by apply test_class_regex.
  - rewrite <- in_tokens_delimits by done. by apply test_class_regex.
Qed.

Lemma hasClass_helper_is_token_membership_witness :
  exists w',
    hasClass_helper 0%nat (js "b") (fresh (all_with (js "ab b-c")) inline_only)
    = Ok false w'.
Proof.
  destruct (hasClass_helper_is_token_membership
              0%nat (js "b") (fresh (all_with (js "ab b-c")) inline_only)
              (fresh_cache_ok _ _) eq_refl)
    as (b & w' & Hrun & Htok & _).
  exists w'. rewrite Hrun. destruct b; [|reflexivity].
  exfalso. assert (Hin : In (js "b") (tokens (js "ab b-c"))) by by apply Htok.
  vm_compute in Hin. intuition congruence.
Defined.







(** X6: [addClass(className)] (lines 127-133), for every class name,
    collection and state, ends in one of three ways.  It returns the
    collection, having constructed at most one new pattern however many
    elements it visited, with every inline style, the callback log and the
    elements outside the collection as before.  Or it throws a SyntaxError
    or TypeError in the very state it was called in: no element is ever left
    changed by a call that throws.  Or the class name uses pattern syntax
    outside the model. *)
Theorem addClass_all_or_nothing (cn : jsstring) (this : collection) (w : world) :
  (exists w',
     addClass cn this w = Ok (RColl this) w'
     /\ compiled w' <= S (compiled w)
     /\ same_styles w w' /\ calls w' = calls w
     /\ forall el, el ∉ elems this -> heap w' el = heap w el)
  \/ (exists e, addClass cn this w = Throw e w /\ (e = SyntaxError \/ e = TypeError))
  \/ addClass cn this w = Unmodelled.
Proof.
  destruct this as [id [|el this]].
  { left. exists w. split_and!; try done. lia. }
  unfold addClass, each. cbn [elems each_from].
  destruct (getClassRegEx_outcome cn w)
    as [(re & w0 & Hget & Hfr0 & Hn0 & Hc0) | [(n & Hget) | [Hget | Hget]]].
  - left.
    destruct (addClass_fn_compiled cn el w re w0 Hget)
      as (w1 & Hstep & Hfr1 & Hst1 & Hother1).
    assert (Hc1 : cache_get w1 cn = Some (Own re)).
    { destruct Hfr1 as (Hcache & _). by rewrite (cache_get_same w0 w1). }
    destruct (addClass_each_cached cn re this w1 Hc1)
      as (w' & Hrest & Hfr' & Hst' & Hother').
    exists w'. unfold bind. rewrite Hstep, Hrest. cbn [ret].
    destruct Hfr0 as (_ & Hcalls0 & _).
    destruct Hfr1 as (_ & Hn1 & Hcalls1 & _).
    destruct Hfr' as (_ & Hn' & Hcalls' & _).
    split_and!; [done | lia | | congruence |].
    + intros l. by rewrite Hst', Hst1.
    + intros l Hl. apply not_elem_of_cons in Hl as [Hne Hl].
      by rewrite Hother', Hother1.
  - right. left. exists TypeError. split; [|by right].
    unfold bind, addClass_fn, hasClass_helper, bind. by rewrite Hget.
  - right. left. exists SyntaxError. split; [|by left].
    unfold bind, addClass_fn, hasClass_helper, bind. by rewrite Hget.
  - right. right.
    unfold bind, addClass_fn, hasClass_helper, bind. by rewrite Hget.
Qed.

(** X7: [removeClass(className)] (lines 197-209), with or without an
    argument, returns the collection, having constructed at most one new
    pattern and with every inline style, the callback log and the elements
    outside the collection as before (so it does for a name inherited from
    [Object.prototype], whose text is then searched for in place of a
    pattern); or it throws a SyntaxError in the very state it was called
    in, before it has visited any element; or the argument uses pattern
    syntax outside the model.  It never throws a TypeError. *)
Theorem removeClass_all_or_nothing
        (cn : option jsstring) (this : collection) (w : world) :
  (exists w',
     removeClass cn this w = Ok (RColl this) w'
     /\ compiled w' <= S (compiled w)
     /\ same_styles w w' /\ calls w' = calls w
     /\ forall el, el ∉ elems this -> heap w' el = heap w el)
  \/ removeClass cn this w = Throw SyntaxError w
  \/ removeClass cn this w = Unmodelled.
Proof.
  destruct cn as [cn|].
  - destruct (getClassRegEx_outcome cn w)
      as [(re & w0 & Hget & Hfr0 & Hn0 & Hc0) | [(n & Hget) | [Hget | Hget]]].
    + left. destruct (removeClass_fn_each re (elems this) w0)
        as (w' & Heach & Hfr & Hheap).
      exists w'. unfold removeClass.
      rewrite (bind_ok _ _ _ _ _ Hget), (bind_ok _ _ _ _ _ (each_ok _ _ _ _ Heach)).
      destruct Hfr0 as (Hheap0 & Hcalls0 & _). destruct Hfr as (_ & Hn & Hcalls & _).
      split_and!; [done | lia | | congruence |].
      * intros l. rewrite Hheap, Hheap0.
        induction (visits l (elems this)) as [|k IH]; [done |].
        by rewrite Nat.iter_succ.
      * intros l Hl. rewrite Hheap, Hheap0.
        apply visits_zero in Hl. by rewrite Hl.
    + left. destruct (removeClass_fn_each_any (Inherited n) (elems this) w)
        as (w' & Heach & Hfr & Hheap).
      exists w'. unfold removeClass.
      rewrite (bind_ok _ _ _ _ _ Hget), (bind_ok _ _ _ _ _ (each_ok _ _ _ _ Heach)).
      destruct Hfr as (_ & Hn & Hcalls & _).
      split_and!; [done | lia | | done |].
      * intros l. rewrite Hheap.
        induction (visits l (elems this)) as [|k IH]; [done |].
        by rewrite Nat.iter_succ.
      * intros l Hl. rewrite Hheap. apply visits_zero in Hl. by rewrite Hl.
    + right. left. unfold removeClass, bind. by rewrite Hget.
    + right. right. unfold removeClass, bind. by rewrite Hget.
  - left. destruct (removeClass_none_spec this w) as (w' & Hrun & Hfr & Hheap).
    exists w'. destruct Hfr as (_ & Hn & Hcalls & _).
    split_and!; [done | lia | | done |].
    + intros l. rewrite Hheap. by destruct (decide (l ∈ elems this)).
    + intros l Hl. by rewrite Hheap, decide_False.
Qed.

(** X8: a class name that the cache object inherits from [Object.prototype]
    ("constructor", "toString", ...) is never compiled: [getClassRegEx]
    (lines 252-260) hands back the inherited value, so the helper
    [hasClass] and [addClass] on a collection with an element throw a
    TypeError and change nothing, while [addClass] on the empty collection
    returns it. *)
Theorem inherited_name_is_a_TypeError
        (cn : jsstring) (id el : nat) (rest : list nat) (w : world) :
  cache_ok w -> inherited cn = true ->
  getClassRegEx cn w = Ok (Inherited cn) w
  /\ hasClass_helper el cn w = Throw TypeError w
  /\ addClass cn (Collection id (el :: rest)) w = Throw TypeError w
  /\ addClass cn (Collection id []) w = Ok (RColl (Collection id [])) w.
Proof.
  intros Hok Hinh. pose proof (hasClass_helper_inherited el cn w Hok Hinh) as Hhas.
  split_and!; [| done | | done].
  - destruct Hok as [Hvalid _]. unfold getClassRegEx, cache_get.
    destruct (reClassNameCache w !! cn) as [re|] eqn:Hlook.
    + destruct (Hvalid cn re Hlook) as [_ H]. congruence.
    + by rewrite Hinh.
  - unfold addClass, each. cbn [elems each_from]. unfold bind, addClass_fn, bind.
    by rewrite Hhas.
Qed.

Lemma inherited_name_is_a_TypeError_witness :
  addClass (js "toString") (Collection 0 [0%nat; 1%nat]) (fresh (all_with (js "a")) inline_only)
  = Throw TypeError (fresh (all_with (js "a")) inline_only).
Proof.
  exact (proj1 (proj2 (proj2
           (inherited_name_is_a_TypeError
              (js "toString") 0%nat 0%nat [1%nat] (fresh (all_with (js "a")) inline_only)
              (fresh_cache_ok _ _) eq_refl)))).
Defined.

(** X9: what [removeClass(C)] (lines 202-207) leaves of the class tokens,
    for a plain class name C and an element visited once: the leftmost
    token C goes; when it was the first or the last token the others stay
    as they are, in order; when it stood between two tokens, those two are
    joined into one. *)
Theorem removeClass_tokens
        (cn : jsstring) (this : collection) (w : world) (el : nat)
        (ts1 ts2 : list jsstring) :
  cache_ok w -> plain cn = true -> visits el (elems this) = 1%nat ->
  tokens (className (heap w el)) = ts1 ++ cn :: ts2 -> ~ In cn ts1 ->
  exists w',
    removeClass (Some cn) this w = Ok (RColl this) w'
    /\ tokens (className (heap w' el)) = fuse ts1 ts2
    /\ (ts1 = [] -> tokens (className (heap w' el)) = ts2)
    /\ (ts2 = [] -> tokens (className (heap w' el)) = ts1)
    /\ (forall tp a b tq, ts1 = tp ++ [a] -> ts2 = b :: tq ->
          tokens (className (heap w' el)) = tp ++ (a ++ b) :: tq).
Proof.
  intros Hok Hplain Hone Htok Hfirst.
  destruct (plain_spec cn Hplain) as (Hne & Hns & _).
  destruct (removeClass_plain_spec cn this w Hok Hplain)
    as (w' & Hrun & _ & _ & _ & Hheap).
  assert (Hres : tokens (className (heap w' el)) = fuse ts1 ts2).
  { rewrite Hheap, className_iter_without_class, Hone. cbn [Nat.iter nat_rect].
    by apply replace_tokens. }
  exists w'. rewrite Hres. split_and!; try done.
  - intros ->. by destruct ts2.
  - by intros ->.
  - intros tp a b tq -> ->. unfold fuse. rewrite rev_app_distr. cbn [rev app].
    by rewrite rev_involutive.
Qed.

Lemma removeClass_tokens_witness :
  exists w',
    removeClass (Some (js "on")) (Collection 0 [3%nat])
                (fresh (all_with (js "x tab on big y")) inline_only)
    = Ok (RColl (Collection 0 [3%nat])) w'
    /\ tokens (className (heap w' 3%nat)) = [js "x"; js "tabbig"; js "y"].
Proof.
  destruct (removeClass_tokens (js "on") (Collection 0 [3%nat])
              (fresh (all_with (js "x tab on big y")) inline_only) 3%nat
              [js "x"; js "tab"] [js "big"; js "y"]
              (fresh_cache_ok _ _) eq_refl eq_refl eq_refl)
    as (w' & Hrun & Htok & _).
  { vm_compute. intuition congruence. }
  exists w'. split; [exact Hrun | exact Htok].
Defined.

(** X10: [removeClass(C)] undoes [addClass(C)] (lines 127-133 and 197-209):
    for a plain class name C and an element of the collection that did not
    have C, the two calls in sequence leave the element with its original
    className trimmed, hence with its original tokens, and with its inline
    style. *)
Theorem addClass_then_removeClass
        (cn : jsstring) (this : collection) (w : world) (el : nat) :
  cache_ok w -> plain cn = true -> el ∈ elems this ->
  ~ In cn (tokens (className (heap w el))) ->
  exists w1 w2,
    addClass cn this w = Ok (RColl this) w1
    /\ removeClass (Some cn) this w1 = Ok (RColl this) w2
    /\ className (heap w2 el) = trim (className (heap w el))
    /\ tokens (className (heap w2 el)) = tokens (className (heap w el))
    /\ style (heap w2 el) = style (heap w el).
Proof.
  intros Hok Hplain Hin Hlacks.
  destruct (plain_spec cn Hplain) as (Hne & Hns & _).
  destruct (addClass_spec cn this w Hplain Hok) as (w1 & Hadd & Hok1 & _ & Hheap1).
  destruct (removeClass_plain_spec cn this w1 Hok1 Hplain)
    as (w2 & Hrem & _ & _ & _ & Hheap2).
  exists w1, w2.
  assert (Hel1 : heap w1 el
                 = Element (trim (className (heap w el) ++ js " " ++ cn))
                           (style (heap w el))).
  { rewrite Hheap1, decide_True by done. unfold with_class.
    destruct (test (class_regex cn) (className (heap w el))) eqn:E; [|done].
    by apply test_class_regex in E. }
  assert (Hvisits : exists k, visits el (elems this) = S k).
  { destruct (visits el (elems this)) eqn:E; [|eauto]. by apply visits_zero in E. }
  destruct Hvisits as [k Hk].
  assert (Hcn2 : className (heap w2 el) = trim (className (heap w el))).
  { rewrite Hheap2, className_iter_without_class, Hk, Nat.iter_succ_r, Hel1.
    cbn [className]. rewrite replace_added by done.
    apply iter_replace_absent; [done..|]. by rewrite tokens_trim. }
  split_and!; [done | done | done | by rewrite Hcn2, tokens_trim |].
  rewrite Hheap2, Hel1. clear. induction (visits el (elems this)) as [|n IH]; [done |].
  by rewrite Nat.iter_succ.
Qed.

Lemma addClass_then_removeClass_witness :
  exists w1 w2,
    addClass (js "on") (Collection 0 [0%nat; 1%nat]) (fresh (all_with (js " a  b ")) inline_only)
    = Ok (RColl (Collection 0 [0%nat; 1%nat])) w1
    /\ removeClass (Some (js "on")) (Collection 0 [0%nat; 1%nat]) w1
       = Ok (RColl (Collection 0 [0%nat; 1%nat])) w2
    /\ className (heap w2 1%nat) = js "a  b".
Proof.
  destruct (addClass_then_removeClass (js "on") (Collection 0 [0%nat; 1%nat])
              (fresh (all_with (js " a  b ")) inline_only) 1%nat
              (fresh_cache_ok _ _) eq_refl)
    as (w1 & w2 & Hadd & Hrem & Hcn & _).
  { apply list_elem_of_In. simpl. tauto. }
  { vm_compute. intuition congruence. }
  exists w1, w2. split_and!; [exact Hadd | exact Hrem |].
  rewrite Hcn. reflexivity.
Defined.

(** X11: [removeClass()] followed by [addClass(C)] (lines 197-201 and
    127-133), for a plain class name C, leaves every element of the
    collection with the className C exactly, no white space around it, and
    with its inline style. *)
Theorem removeClass_all_then_addClass
        (cn : jsstring) (this : collection) (w : world) :
  cache_ok w -> plain cn = true ->
  exists w1 w2,
    removeClass None this w = Ok (RColl this) w1
    /\ addClass cn this w1 = Ok (RColl this) w2
    /\ forall el, el ∈ elems this ->
         className (heap w2 el) = cn /\ style (heap w2 el) = style (heap w el).
Proof.
  intros Hok Hplain. destruct (plain_spec cn Hplain) as (Hne & Hns & _).
  destruct (removeClass_none_spec this w) as (w1 & Hrem & (Hc & Hn & _) & Hheap1).
  assert (Hok1 : cache_ok w1) by (unfold cache_ok in *; by rewrite Hc, Hn).
  destruct (addClass_spec cn this w1 Hplain Hok1) as (w2 & Hadd & _ & _ & Hheap2).
  exists w1, w2. split_and!; [done | done |].
  intros el Hin. rewrite Hheap2, Hheap1, !decide_True by done.
  unfold with_class, without_classes. cbn [className style].
  replace (test (class_regex cn) []) with false.
  - cbn [className style app]. by rewrite trim_space_name.
  - symmetry. destruct (test (class_regex cn) []) eqn:E; [|done].
    apply test_class_regex in E; [|done..]. done.
Qed.

Lemma removeClass_all_then_addClass_witness :
  exists w1 w2,
    removeClass None (Collection 0 [0%nat]) (fresh (all_with (js "a b")) inline_only)
    = Ok (RColl (Collection 0 [0%nat])) w1
    /\ addClass (js "only") (Collection 0 [0%nat]) w1
       = Ok (RColl (Collection 0 [0%nat])) w2
    /\ className (heap w2 0%nat) = js "only".
Proof.
  destruct (removeClass_all_then_addClass (js "only") (Collection 0 [0%nat])
              (fresh (all_with (js "a b")) inline_only)
              (fresh_cache_ok _ _) eq_refl)
    as (w1 & w2 & Hrem & Hadd & Hall).
  exists w1, w2. split_and!; [exact Hrem | exact Hadd |].
  apply Hall. apply list_elem_of_In. simpl. tauto.
Defined.

(** X12: [setStyle(prop, val)] (lines 54-58) returns the collection and
    makes the assignment [el.style[prop] = val] on every element of it.  What
    a style object stores for an assignment is the platform's matter;
    whatever that is, every element of the collection ends with what one
    such assignment leaves, however often the collection lists the element:
    under a key the assignment writes, what it writes there, and under every
    other key what was there before.  The classNames, the elements outside
    the collection, the pattern cache and the callback log are as before,
    and a second [setStyle(prop, val)] changes nothing. *)
Theorem setStyle_assigns_once
        (prop val : jsstring) (this : collection) (w : world) :
  exists w',
    setStyle prop val this w = Ok (RColl this) w'
    /\ same_but_heap w w' /\ same_classNames w w'
    /\ (forall el, el ∈ elems this ->
          style (heap w' el)
          = assign_style (assigned (host w) prop val) (style (heap w el))
          /\ forall k,
               style (heap w' el) !! k
               = match written (assigned (host w) prop val) k with
                 | Some v => v
                 | None => style (heap w el) !! k
                 end)
    /\ (forall el, el ∉ elems this -> heap w' el = heap w el)
    /\ exists w2,
         setStyle prop val this w' = Ok (RColl this) w2
         /\ forall el, heap w2 el = heap w' el.
Proof.
  destruct (setStyle_spec prop val this w) as (w' & Hrun & Hfr & Hheap).
  exists w'. split_and!; [done | done | | | |].
  - intros el. rewrite Hheap. by destruct (decide (el ∈ elems this)).
  - intros el Hin. rewrite Hheap, decide_True by done. cbn [with_style style].
    split; [done |]. intros k. apply assign_style_lookup.
  - intros el Hnotin. by rewrite Hheap, decide_False.
  - destruct (setStyle_spec prop val this w') as (w2 & Hrun2 & _ & Hheap2).
    exists w2. split; [done |]. intros el. rewrite Hheap2, Hheap.
    destruct Hfr as (_ & _ & _ & ->).
    destruct (decide (el ∈ elems this)); [|done]. apply with_style_idem.
Qed.


(** X14: when no two properties of [o] make the platform write under a
    common key of the style object (as a shorthand and one of its longhands
    would), the order in which [for (var prop in o)] (lines 239-241)
    enumerates them does not matter: [css] with the same properties in
    another order leaves every element in the same state. *)
Theorem css_order_is_irrelevant
        (o o' : list (jsstring * jsstring)) (this : collection) (w : world) :
  separate (host w) o -> o ≡ₚ o' ->
  exists w1 w2,
    css o this w = Ok (RColl this) w1
    /\ css o' this w = Ok (RColl this) w2
    /\ forall el, heap w1 el = heap w2 el.
Proof.
  intros Hsep Hperm.
  destruct (css_spec o this w) as (w1 & Hrun1 & _ & Hheap1).
  destruct (css_spec o' this w) as (w2 & Hrun2 & _ & Hheap2).
  exists w1, w2. split_and!; [done | done |].
  intros el. rewrite Hheap1, Hheap2. destruct (decide (el ∈ elems this)); [|done].
  rewrite !with_styles_assign. by rewrite (assign_perm _ o o').
Qed.

Lemma css_order_is_irrelevant_witness :
  exists w1 w2,
    css [(js "color", js "red"); (js "margin-top", js "5px")] (Collection 0 [0%nat])
        (fresh blank with_margins) = Ok (RColl (Collection 0 [0%nat])) w1
    /\ css [(js "margin-top", js "5px"); (js "color", js "red")] (Collection 0 [0%nat])
           (fresh blank with_margins) = Ok (RColl (Collection 0 [0%nat])) w2
    /\ heap w1 0%nat = heap w2 0%nat.
Proof.
  destruct (css_order_is_irrelevant
              [(js "color", js "red"); (js "margin-top", js "5px")]
              [(js "margin-top", js "5px"); (js "color", js "red")]
              (Collection 0 [0%nat]) (fresh blank with_margins))
    as (w1 & w2 & H1 & H2 & Hsame).
  { assert (E1 : assigned (host (fresh blank with_margins)) (js "color") (js "red")
                 = Assignment false [(js "color", Some (js "red"))]) by reflexivity.
    assert (E2 : assigned (host (fresh blank with_margins)) (js "margin-top") (js "5px")
                 = Assignment false [(js "margin-top", Some (js "5px"))])
      by reflexivity.
    intros kv kv' k Hkv Hkv' Hw Hw'.
    apply elem_of_cons in Hkv as [-> | Hkv];
      [| apply list_elem_of_singleton in Hkv as ->];
      (apply elem_of_cons in Hkv' as [-> | Hkv'];
       [| apply list_elem_of_singleton in Hkv' as ->]);
      try reflexivity; exfalso; cbn [fst snd] in Hw, Hw';
      rewrite ?E1, ?E2 in Hw; rewrite ?E1, ?E2 in Hw';
      rewrite written_single in Hw; rewrite written_single in Hw';
      destruct (decide (js "color" = k)) as [<- |]; try done;
      destruct (decide (js "margin-top" = js "color")) as [E |]; try done;
      vm_compute in E; discriminate. }
  { apply Permutation_swap. }
  exists w1, w2. split_and!; [exact H1 | exact H2 | apply Hsame].
Defined.

(** X15: [removeClass(C)] (lines 202-207) with a plain class name C leaves
    alone every element that does not have the class, however often the
    collection lists it, and every element outside the collection. *)
Theorem removeClass_spares_elements_without_the_class
        (cn : jsstring) (this : collection) (w : world) :
  cache_ok w -> plain cn = true ->
  exists w',
    removeClass (Some cn) this w = Ok (RColl this) w'
    /\ (forall el, ~ In cn (tokens (className (heap w el))) ->
          heap w' el = heap w el)
    /\ (forall el, el ∉ elems this -> heap w' el = heap w el).
Proof.
  intros Hok Hplain. destruct (plain_spec cn Hplain) as (Hne & Hns & _).
  destruct (removeClass_plain_spec cn this w Hok Hplain)
    as (w' & Hrun & _ & _ & _ & Hheap).
  exists w'. split_and!; [done | |].
  - intros el Hlacks. rewrite Hheap.
    induction (visits el (elems this)) as [|k IH]; [done |].
    rewrite Nat.iter_succ, IH. unfold without_class.
    rewrite replace_absent by done. by destruct (heap w el).
  - intros el Hnotin. rewrite Hheap. apply visits_zero in Hnotin.
    by rewrite Hnotin.
Qed.

Lemma removeClass_spares_elements_without_the_class_witness :
  exists w',
    removeClass (Some (js "b")) (Collection 0 [0%nat; 0%nat]) (fresh (all_with (js "ab bc")) inline_only)
    = Ok (RColl (Collection 0 [0%nat; 0%nat])) w'
    /\ className (heap w' 0%nat) = js "ab bc".
Proof.
  destruct (removeClass_spares_elements_without_the_class (js "b") (Collection 0 [0%nat; 0%nat])
              (fresh (all_with (js "ab bc")) inline_only)
              (fresh_cache_ok _ _) eq_refl)
    as (w' & Hrun & Hspare & _).
  exists w'. split; [exact Hrun |]. rewrite Hspare; [reflexivity |].
  vm_compute. intuition congruence.
Defined.
